(** * GELF writer: chunked datagram framing, compressor cache and record codec

    A shallow embedding of [gelf_writer.go].  Go's [int] is modelled by [Z]
    (no computation here comes near the 64-bit limits), a [[]byte] by
    [list byte], a Go [string] by [string] (a sequence of bytes), and a
    [map[string]interface{}] by [gmap string value].  Calls into the
    environment (the datagram connection, the random source, the JSON and
    compression libraries) are explicit parameters; the state they change
    is threaded through a [world] record. *)

From Stdlib Require Import ZArith Lia List.
From Stdlib.Strings Require Import String Ascii Byte.
From stdpp Require Import base tactics option list strings gmap sorting.

Local Open Scope Z_scope.
#[local] Set Warnings "-register-all".

(** ** Outcomes of a Go call *)

(** The run-time panics this file can raise. *)
Inductive panic :=
| IndexOutOfRange                      (* b[i] or b[lo:hi] outside the bounds *)
| InterfaceConversion                  (* v.(T) on a value of another type    *)
| NilDereference                       (* a method reading through a nil pointer *)
| UnknownCompression (t : Z).          (* panic(fmt.Sprintf("unknown compression type %d", t)) *)

(** The errors the writer returns; one constructor per [fmt.Errorf] site,
    and the last three for an error handed back by a library call. *)
Inductive error :=
| ErrTooLarge (nChunks : Z)            (* "msg too large, would need %d chunks" *)
| ErrRand (n : Z) (e : option string)  (* "rand.Reader: %d/%s"                  *)
| ErrWriteChunk (i nChunks : Z) (e : string)   (* "Write (chunk %d/%d): %s"     *)
| ErrWriteLen (i nChunks n len : Z)    (* "Write len: (chunk %d/%d) (%d/%d)"    *)
| ErrBytesLeft (bytesLeft : Z)         (* "error: %d bytes left after sending"  *)
| ErrBadWrite (n len : Z)              (* "bad write (%d/%d)"                   *)
| ErrMarshal                           (* the error of json.Marshal             *)
| ErrUnmarshal                         (* the error of json.Unmarshal           *)
| ErrLib (e : string).                 (* the error of conn.Write, of a compressor constructor or of its Write *)

Inductive res (A : Type) :=
| Ok (a : A)
| Err (e : error)
| Panic (p : panic).
Arguments Ok {A} a.
Arguments Err {A} e.
Arguments Panic {A} p.

Definition is_panic {A} (r : res A) : bool :=
  match r with Panic _ => true | _ => false end.

Definition is_err {A} (r : res A) : bool :=
  match r with Err _ => true | _ => false end.

(** ** Bytes and slices *)

Definition blen (b : list byte) : Z := Z.of_nat (length b).

Global Instance byte_eq_dec : EqDecision byte.
Proof.
  intros x y. destruct (Byte.eqb x y) eqn:H.
  - left. by apply Byte.byte_dec_bl.
  - right. by apply Byte.eqb_false.
Defined.

(** [uint8(n)] stored in one byte. *)
Definition uint8_byte (n : Z) : byte :=
  default x00 (Byte.of_N (Z.to_N (n mod 256))).

Definition byte_val (b : byte) : Z := Z.of_N (Byte.to_N b).

(** [b[lo:hi]]; out of bounds is a run-time panic, [None] here.  The
    capacity of [b] is taken to be its length. *)
Definition go_slice (b : list byte) (lo hi : Z) : option (list byte) :=
  if decide (0 <= lo ∧ lo <= hi ∧ hi <= blen b)
  then Some (take (Z.to_nat (hi - lo)) (drop (Z.to_nat lo) b))
  else None.

(** ** Chunking constants *)

Definition ChunkSize : Z := 1420.
Definition chunkedHeaderLen : Z := 12.
Definition chunkedDataLen : Z := ChunkSize - chunkedHeaderLen.

Definition magicChunked : list byte := [x1e; x0f].

Definition numChunks (b : list byte) : Z :=
  let lenB := blen b in
  if decide (lenB <= ChunkSize) then 1
  else blen b / chunkedDataLen + 1.

(** ** The environment of a [UDPWriter] *)

(** What [io.ReadFull(rand.Reader, msgId)] gives back: the bytes it put
    into the buffer, the count [n] and the error. *)
Record rand_read := RandRead {
  rr_bytes : list byte;
  rr_n : Z;
  rr_err : option string
}.

(** The 8-byte buffer [msgId] after the read: [make([]byte, 8)] overwritten
    from the front. *)
Definition fill8 (bs : list byte) : list byte :=
  take 8 (bs ++ replicate 8 x00).

(** The observable state: the datagrams handed to [conn.Write], oldest
    first, the number of reads made from the random source, and the number
    of compressors constructed so far. *)
Record world := World {
  sent : list (list byte);
  draws : nat;
  built : nat
}.

(** The environment: what [conn.Write] reports for a buffer, given the
    datagrams written before it, and what the k-th read of the random
    source returns. *)
Record env := Env {
  udp : list (list byte) -> list byte -> Z * option string;
  urandom : nat -> rand_read
}.

Definition conn_Write (E : env) (w : world) (b : list byte)
  : world * (Z * option string) :=
  (World (sent w ++ [b]) (draws w) (built w), udp E (sent w) b).

Definition rand_ReadFull (E : env) (w : world) : world * rand_read :=
  (World (sent w) (S (draws w)) (built w), urandom E (draws w)).

(** ** writeChunked *)

(** The datagram built in [buf] for chunk [i]. *)
Definition chunk_datagram (msgId : list byte) (i nChunks : Z)
    (chunk : list byte) : list byte :=
  magicChunked ++ msgId ++ [uint8_byte i] ++ [uint8_byte nChunks] ++ chunk.

(** The loop [for i := uint8(0); i < nChunks; i++].  [nChunks] is at most
    255 when the loop is entered, so [i++] never wraps and the body runs
    for i = 0 .. nChunks-1: [k] counts the iterations still to run.  The
    result is [bytesLeft] after the loop. *)
Fixpoint chunk_loop (E : env) (k : nat) (i nChunks : Z)
    (msgId zBytes : list byte) (bytesLeft : Z) (w : world)
  : world * res Z :=
  match k with
  | O => (w, Ok bytesLeft)
  | S k' =>
    let chunkLen :=
      if decide (chunkedDataLen > bytesLeft) then bytesLeft
      else chunkedDataLen in
    let off := i * chunkedDataLen in
    match go_slice zBytes off (off + chunkLen) with
    | None => (w, Panic IndexOutOfRange)
    | Some chunk =>
      let buf := chunk_datagram msgId i nChunks chunk in
      let '(w', (n, err)) := conn_Write E w buf in
      match err with
      | Some e => (w', Err (ErrWriteChunk i nChunks e))
      | None =>
        if decide (n ≠ blen buf)
        then (w', Err (ErrWriteLen i nChunks n (blen buf)))
        else chunk_loop E k' (i + 1) nChunks msgId zBytes
               (bytesLeft - chunkLen) w'
      end
    end
  end.

Definition writeChunked (E : env) (zBytes : list byte) (w : world)
  : world * res unit :=
  let nChunksI := numChunks zBytes in
  if decide (nChunksI > 255) then (w, Err (ErrTooLarge nChunksI))
  else
    let nChunks := nChunksI in
    let '(w1, r) := rand_ReadFull E w in
    let msgId := fill8 (rr_bytes r) in
    if decide (rr_err r ≠ None ∨ rr_n r ≠ 8)
    then (w1, Err (ErrRand (rr_n r) (rr_err r)))
    else
      match chunk_loop E (Z.to_nat nChunks) 0 nChunks msgId zBytes
              (blen zBytes) w1 with
      | (w2, Ok bytesLeft) =>
        if decide (bytesLeft ≠ 0) then (w2, Err (ErrBytesLeft bytesLeft))
        else (w2, Ok tt)
      | (w2, Err e) => (w2, Err e)
      | (w2, Panic p) => (w2, Panic p)
      end.

(** ** JSON values and the [encoding/json] library *)

Section Codec.
Context {float64 : Type}.

(** What [json.Unmarshal] stores in an [interface{}]: nil, bool, float64,
    string, [[]interface{}] and [map[string]interface{}]. *)
Inductive value :=
| JNull
| JBool (b : bool)
| JNum (f : float64)
| JStr (s : string)
| JArr (l : list value)
| JObj (l : list (string * value)).

(** The library calls the codec makes.  [Unmarshal] is
    [json.Unmarshal(data, &i)] for a fresh [map[string]interface{}];
    [None] is its error.  [compact] is the check and compaction that
    [json.Marshal] applies to the bytes a [MarshalJSON] method returns. *)
Record json_lib := JsonLib {
  enc_string : string -> list byte;
  enc_float : float64 -> option (list byte);
  enc_int : Z -> list byte;
  enc_value : value -> option (list byte);
  compact : list byte -> option (list byte);
  Unmarshal : list byte -> option (gmap string value);
  int32_of_float64 : float64 -> Z;
  int_of_float64 : float64 -> Z
}.

Record Message := mkMessage {
  Version : string;
  Host : string;
  Short : string;
  Full : string;
  TimeUnix : float64;
  Level : Z;
  Facility : string;
  File : string;
  Line : Z;
  Extra : option (gmap string value)     (* [None] is the nil map *)
}.

(** The entries of a map, the nil map having none. *)
Definition entries (e : option (gmap string value)) : gmap string value :=
  default ∅ e.

(** [len(extra)] *)
Definition map_len (e : option (gmap string value)) : Z :=
  Z.of_nat (size (entries e)).

(** *** Object syntax as [encoding/json] writes it *)

Definition lbrace : byte := x7b.
Definition rbrace : byte := x7d.
Definition comma : byte := x2c.
Definition colon : byte := x3a.
Definition dquote : byte := x22.

(** The key of a struct field, as the encoder emits it: the name between
    double quotes. *)
Definition quote (name : string) : list byte :=
  dquote :: list_byte_of_string name ++ [dquote].

Definition render_member (kv : list byte * list byte) : list byte :=
  kv.1 ++ colon :: kv.2.

Fixpoint join_members (ms : list (list byte)) : list byte :=
  match ms with
  | [] => []
  | [m] => m
  | m :: ms' => m ++ comma :: join_members ms'
  end.

(** An object with the given members (encoded key, encoded value), in
    order. *)
Definition render_object (ms : list (list byte * list byte)) : list byte :=
  lbrace :: join_members (render_member <$> ms) ++ [rbrace].

Variable J : json_lib.

(** [json.Marshal] of the message seen as an [innerMessage]: the nine
    tagged fields in declaration order; [Extra] is tagged "-" and left
    out. *)
Definition fixed_members (m : Message) (ts : list byte)
  : list (list byte * list byte) :=
  [ (quote "version", enc_string J (Version m));
    (quote "host", enc_string J (Host m));
    (quote "short_message", enc_string J (Short m));
    (quote "full_message", enc_string J (Full m));
    (quote "timestamp", ts);
    (quote "level", enc_int J (Level m));
    (quote "facility", enc_string J (Facility m));
    (quote "file", enc_string J (File m));
    (quote "line", enc_int J (Line m)) ].

Definition Marshal_innerMessage (m : Message) : option (list byte) :=
  ts ← enc_float J (TimeUnix m);
  Some (render_object (fixed_members m ts)).

(** Map keys are written in sorted order. *)
Definition key_le (a b : string * value) : Prop :=
  Is_true (String.leb a.1 b.1).

Global Instance key_le_dec a b : Decision (key_le a b).
Proof. unfold key_le. apply _. Defined.

Definition sorted_entries (e : gmap string value) : list (string * value) :=
  merge_sort key_le (map_to_list e).

Definition encode_entry (kv : string * value)
  : option (list byte * list byte) :=
  b ← enc_value J kv.2; Some (enc_string J kv.1, b).

(** [json.Marshal(extra)] *)
Definition Marshal_map (e : gmap string value) : option (list byte) :=
  ms ← mapM encode_entry (sorted_entries e);
  Some (render_object ms).

(** [b[i] = x] *)
Definition go_store (b : list byte) (i : Z) (x : byte)
  : option (list byte) :=
  if decide (0 <= i ∧ i < blen b) then Some (<[Z.to_nat i := x]> b)
  else None.

(** ** MarshalJSON *)

Definition MarshalJSON (m : Message) : res (list byte) :=
  let extra := Extra m in
  match Marshal_innerMessage m with
  | None => Err ErrMarshal
  | Some b =>
    if decide (map_len extra = 0) then Ok b
    else
      match Marshal_map (entries extra) with
      | None => Err ErrMarshal
      | Some eb =>
        (* merge serialized message + serialized extra map *)
        match go_store b (blen b - 1) comma with
        | None => Panic IndexOutOfRange
        | Some b' =>
          match go_slice eb 1 (blen eb) with
          | None => Panic IndexOutOfRange
          | Some tl => Ok (b' ++ tl)
          end
        end
      end
  end.

(** ** UnmarshalJSON *)

(** [v.(string)] and [v.(float64)]: a value of another dynamic type (nil
    included) is a run-time panic. *)
Definition assert_string (v : value) : res string :=
  match v with JStr s => Ok s | _ => Panic InterfaceConversion end.

Definition assert_float64 (v : value) : res float64 :=
  match v with JNum f => Ok f | _ => Panic InterfaceConversion end.

Definition res_bind {A B} (r : res A) (f : A -> res B) : res B :=
  match r with
  | Ok a => f a
  | Err e => Err e
  | Panic p => Panic p
  end.

Definition set_Version (s : string) (m : Message) : Message :=
  mkMessage s (Host m) (Short m) (Full m) (TimeUnix m) (Level m)
    (Facility m) (File m) (Line m) (Extra m).
Definition set_Host (s : string) (m : Message) : Message :=
  mkMessage (Version m) s (Short m) (Full m) (TimeUnix m) (Level m)
    (Facility m) (File m) (Line m) (Extra m).
Definition set_Short (s : string) (m : Message) : Message :=
  mkMessage (Version m) (Host m) s (Full m) (TimeUnix m) (Level m)
    (Facility m) (File m) (Line m) (Extra m).
Definition set_Full (s : string) (m : Message) : Message :=
  mkMessage (Version m) (Host m) (Short m) s (TimeUnix m) (Level m)
    (Facility m) (File m) (Line m) (Extra m).
Definition set_TimeUnix (f : float64) (m : Message) : Message :=
  mkMessage (Version m) (Host m) (Short m) (Full m) f (Level m)
    (Facility m) (File m) (Line m) (Extra m).
Definition set_Level (n : Z) (m : Message) : Message :=
  mkMessage (Version m) (Host m) (Short m) (Full m) (TimeUnix m) n
    (Facility m) (File m) (Line m) (Extra m).
Definition set_Facility (s : string) (m : Message) : Message :=
  mkMessage (Version m) (Host m) (Short m) (Full m) (TimeUnix m) (Level m)
    s (File m) (Line m) (Extra m).
Definition set_File (s : string) (m : Message) : Message :=
  mkMessage (Version m) (Host m) (Short m) (Full m) (TimeUnix m) (Level m)
    (Facility m) s (Line m) (Extra m).
Definition set_Line (n : Z) (m : Message) : Message :=
  mkMessage (Version m) (Host m) (Short m) (Full m) (TimeUnix m) (Level m)
    (Facility m) (File m) n (Extra m).
Definition set_Extra (e : option (gmap string value)) (m : Message)
  : Message :=
  mkMessage (Version m) (Host m) (Short m) (Full m) (TimeUnix m) (Level m)
    (Facility m) (File m) (Line m) e.

(** The [switch k] on the fixed field names; a name outside the list
    leaves the message as it is. *)
Definition decode_fixed (m : Message) (k : string) (v : value)
  : res Message :=
  if String.eqb k "version" then
    res_bind (assert_string v) (fun s => Ok (set_Version s m))
  else if String.eqb k "host" then
    res_bind (assert_string v) (fun s => Ok (set_Host s m))
  else if String.eqb k "short_message" then
    res_bind (assert_string v) (fun s => Ok (set_Short s m))
  else if String.eqb k "full_message" then
    res_bind (assert_string v) (fun s => Ok (set_Full s m))
  else if String.eqb k "timestamp" then
    res_bind (assert_float64 v) (fun f => Ok (set_TimeUnix f m))
  else if String.eqb k "level" then
    res_bind (assert_float64 v)
      (fun f => Ok (set_Level (int32_of_float64 J f) m))
  else if String.eqb k "facility" then
    res_bind (assert_string v) (fun s => Ok (set_Facility s m))
  else if String.eqb k "file" then
    res_bind (assert_string v) (fun s => Ok (set_File s m))
  else if String.eqb k "line" then
    res_bind (assert_float64 v)
      (fun f => Ok (set_Line (int_of_float64 J f) m))
  else Ok m.

(** One iteration of [for k, v := range i]. *)
Definition decode_entry (m : Message) (k : string) (v : value)
  : res Message :=
  match k with
  | EmptyString => Panic IndexOutOfRange                   (* k[0] *)
  | String c _ =>
    if Ascii.eqb c "_" then
      (* if m.Extra == nil { m.Extra = make(...) }; m.Extra[k] = v *)
      Ok (set_Extra (Some (<[k := v]> (entries (Extra m)))) m)
    else decode_fixed m k v
  end.

(** The loop over the entries in the order the run time visits them. *)
Fixpoint decode_range (order : list (string * value)) (m : Message)
  : res Message :=
  match order with
  | [] => Ok m
  | (k, v) :: rest => res_bind (decode_entry m k v) (decode_range rest)
  end.

(** [m.UnmarshalJSON(data)].  Go leaves the iteration order of a map
    unspecified, so the method is a relation: one outcome for each order
    in which the entries of the decoded object can be visited. *)
Inductive UnmarshalJSON (m : Message) (data : list byte)
  : res Message -> Prop :=
| Unmarshal_fails :
    Unmarshal J data = None ->
    UnmarshalJSON m data (Err ErrUnmarshal)
| Unmarshal_ranges (i : gmap string value) (order : list (string * value)) :
    Unmarshal J data = Some i ->
    order ≡ₚ map_to_list i ->
    UnmarshalJSON m data (decode_range order m).

(** [json.Marshal(m)] for a [*Message]: the method above, then the
    library's check of its output. *)
Definition json_Marshal (m : Message) : res (list byte) :=
  res_bind (MarshalJSON m)
    (fun b => match compact J b with
              | Some b' => Ok b'
              | None => Err ErrMarshal
              end).

End Codec.

(** ** The compressor and WriteMessage *)

Definition CompressGzip : Z := 0.
Definition CompressZlib : Z := 1.
Definition NoCompress : Z := 2.

(** [flate.BestSpeed] *)
Definition BestSpeed : Z := 1.

(** What the interface field [zw] can hold besides nil.  A compressor
    carries the level it was built with and a serial number, fresh at each
    construction, that tells one compressor from the next.  The two nil
    pointers are what the constructors return with an error. *)
Inductive handle :=
| GzipWriter (level : Z) (id : nat)
| ZlibWriter (level : Z) (id : nat)
| BufferedWriter (id : nat)
| NilGzipWriter
| NilZlibWriter.

(** The calls into [compress/gzip] and [compress/zlib]: the error of
    [NewWriterLevel] for a type and level, and what [Reset(&zBuf)],
    [Write(p)], [Close()] leave in [zBuf] (or the error of [Write]). *)
Record flate_lib := FlateLib {
  NewWriterLevel : Z -> Z -> option string;
  deflate : Z -> Z -> list byte -> string + list byte
}.

(** The fields of the writer that are data; the mutex and the connection
    are part of the environment.  The field [Facility] is [WriterFacility]
    here, the name being taken by the field of [Message]. *)
Record UDPWriter := mkUDPWriter {
  hostname : string;
  WriterFacility : string;
  CompressionLevel : Z;
  CompressionType : Z;
  zw : option handle;
  zwCompressionLevel : Z;
  zwCompressionType : Z
}.

Definition set_zw (h : option handle) (u : UDPWriter) : UDPWriter :=
  mkUDPWriter (hostname u) (WriterFacility u) (CompressionLevel u)
    (CompressionType u) h (zwCompressionLevel u) (zwCompressionType u).

(** The writer [newUDPWriter] returns: [new(UDPWriter)] with the level
    set to [flate.BestSpeed], the host name and the facility. *)
Definition newUDPWriter (host facility : string) : UDPWriter :=
  mkUDPWriter host facility BestSpeed 0 None 0 0.

Definition next_id (w : world) : world :=
  World (sent w) (draws w) (S (built w)).

Section Transport.
Context {float64 : Type}.
Variable J : @json_lib float64.
Variable F : flate_lib.
Variable E : env.

(** The [switch w.CompressionType]: the writer and world after it and the
    error in [err]. *)
Definition obtain (u : UDPWriter) (w : world)
  : res (UDPWriter * world * option string) :=
  if decide (CompressionType u = CompressGzip) then
    match zw u with
    | None =>
      match NewWriterLevel F CompressGzip (CompressionLevel u) with
      | None =>
        Ok (set_zw (Some (GzipWriter (CompressionLevel u) (built w))) u,
            next_id w, None)
      | Some e => Ok (set_zw (Some NilGzipWriter) u, w, Some e)
      end
    | Some _ => Ok (u, w, None)
    end
  else if decide (CompressionType u = CompressZlib) then
    match zw u with
    | None =>
      match NewWriterLevel F CompressZlib (CompressionLevel u) with
      | None =>
        Ok (set_zw (Some (ZlibWriter (CompressionLevel u) (built w))) u,
            next_id w, None)
      | Some e => Ok (set_zw (Some NilZlibWriter) u, w, Some e)
      end
    | Some _ => Ok (u, w, None)
    end
  else if decide (CompressionType u = NoCompress) then
    Ok (set_zw (Some (BufferedWriter (built w))) u, next_id w, None)
  else Panic (UnknownCompression (CompressionType u)).

(** [w.zw.Reset(&zBuf)], [w.zw.Write(mBytes)], [w.zw.Close()]: the bytes
    left in [zBuf]. *)
Definition run_zw (h : option handle) (mBytes : list byte)
  : res (list byte) :=
  match h with
  | None | Some NilGzipWriter | Some NilZlibWriter => Panic NilDereference
  | Some (BufferedWriter _) => Ok mBytes
  | Some (GzipWriter level _) =>
    match deflate F CompressGzip level mBytes with
    | inl e => Err (ErrLib e)
    | inr z => Ok z
    end
  | Some (ZlibWriter level _) =>
    match deflate F CompressZlib level mBytes with
    | inl e => Err (ErrLib e)
    | inr z => Ok z
    end
  end.

(** The first part of [WriteMessage], up to [zBytes := zBuf.Bytes()]:
    the record is encoded, the compressor looked up or built, and the
    encoding run through it. *)
Definition prepare (m : Message) (u : UDPWriter) (w : world)
  : UDPWriter * world * res (list byte) :=
  match json_Marshal J m with
  | Err e => (u, w, Err e)
  | Panic p => (u, w, Panic p)
  | Ok mBytes =>
    (* If compression settings have changed, a new writer is required. *)
    let u1 :=
      if decide (zwCompressionType u ≠ CompressionType u
                 ∨ zwCompressionLevel u ≠ CompressionLevel u)
      then set_zw None u else u in
    match obtain u1 w with
    | Err e => (u1, w, Err e)
    | Panic p => (u1, w, Panic p)
    | Ok (u2, w2, Some e) => (u2, w2, Err (ErrLib e))
    | Ok (u2, w2, None) => (u2, w2, run_zw (zw u2) mBytes)
    end
  end.

(** The second part: chunked, or as one datagram. *)
Definition send (zBytes : list byte) (w : world) : world * res unit :=
  if decide (numChunks zBytes > 1) then writeChunked E zBytes w
  else
    let '(w', (n, err)) := conn_Write E w zBytes in
    match err with
    | Some e => (w', Err (ErrLib e))
    | None =>
      if decide (n ≠ blen zBytes)
      then (w', Err (ErrBadWrite n (blen zBytes)))
      else (w', Ok tt)
    end.

Definition WriteMessage (m : Message) (u : UDPWriter) (w : world)
  : UDPWriter * world * res unit :=
  match prepare m u w with
  | (u2, w2, Err e) => (u2, w2, Err e)
  | (u2, w2, Panic p) => (u2, w2, Panic p)
  | (u2, w2, Ok zBytes) => let '(w3, r) := send zBytes w2 in (u2, w3, r)
  end.

End Transport.

(** ** The chunk sequence of a buffer *)

(** The payload of chunk [j]: the bytes from [j * chunkedDataLen] on, at
    most [chunkedDataLen] of them. *)
Definition chunk_of (zBytes : list byte) (j : Z) : list byte :=
  take (Z.to_nat chunkedDataLen)
       (drop (Z.to_nat (j * chunkedDataLen)) zBytes).

Definition frame (msgId : list byte) (nChunks : Z) (zBytes : list byte)
    (j : Z) : list byte :=
  chunk_datagram msgId j nChunks (chunk_of zBytes j).

(** The datagrams of chunks [i], [i+1], ..., [i+c-1]. *)
Fixpoint frames (msgId : list byte) (nChunks : Z) (zBytes : list byte)
    (i : Z) (c : nat) : list (list byte) :=
  match c with
  | O => []
  | S c' =>
    frame msgId nChunks zBytes i :: frames msgId nChunks zBytes (i + 1) c'
  end.

(** The payload of a chunk datagram: what follows the 12-byte header. *)
Definition payload (d : list byte) : list byte :=
  drop (Z.to_nat chunkedHeaderLen) d.

(** [conn.Write(b)] after the datagrams [h] is good: no error, and the
    count it reports is the length of [b]. *)
Definition accepted (E : env) (h : list (list byte)) (b : list byte) : Prop :=
  (udp E h b).2 = None ∧ (udp E h b).1 = blen b.

Global Instance accepted_dec E h b : Decision (accepted E h b).
Proof. unfold accepted. apply _. Defined.

Fixpoint all_accepted (E : env) (h : list (list byte))
    (fs : list (list byte)) : Prop :=
  match fs with
  | [] => True
  | f :: fs' => accepted E h f ∧ all_accepted E (h ++ [f]) fs'
  end.

(** The error [writeChunked] returns when the write of chunk [i] is not
    good. *)
Definition chunk_write_error (E : env) (h : list (list byte))
    (i nChunks : Z) (b : list byte) : error :=
  match (udp E h b).2 with
  | Some e => ErrWriteChunk i nChunks e
  | None => ErrWriteLen i nChunks (udp E h b).1 (blen b)
  end.

(** ** Reference environments *)

Definition id_bytes : list byte := [x01; x23; x45; x67; x89; xab; xcd; xef].

(** A connection that takes every datagram whole, and a random source
    that fills the buffer. *)
Definition reliable : env :=
  Env (fun _ b => (blen b, None)) (fun _ => RandRead id_bytes 8 None).

(** A connection that reports one byte less than it was given for the
    datagram in position [k], and takes the others whole. *)
Definition short_at (k : nat) : env :=
  Env (fun h b => if decide (length h = k) then (blen b - 1, None)
                  else (blen b, None))
      (fun _ => RandRead id_bytes 8 None).

Definition world0 : world := World [] 0 0.

(** A buffer of [n] zero bytes. *)
Definition zeros (n : Z) : list byte := replicate (Z.to_nat n) x00.

(** ** Notions used to state the codec's properties *)

Section CodecSpec.
Context {float64 : Type}.
Variable J : @json_lib float64.

(** [k[0] == '_'] for a key that has a first byte. *)
Definition starts_underscore (k : string) : bool :=
  match k with
  | String c _ => Ascii.eqb c "_"
  | EmptyString => false
  end.

(** One iteration of the loop as a function on messages; an iteration
    that panics leaves the message as it is. *)
Definition step (m : @Message float64) (kv : string * @value float64)
  : @Message float64 :=
  match decode_entry J m kv.1 kv.2 with
  | Ok m' => m'
  | _ => m
  end.

(** An entry the loop body takes without a panic. *)
Definition good (kv : string * @value float64) : Prop :=
  forall m, ∃ m', decode_entry J m kv.1 kv.2 = Ok m'.

(** The fixed field names with the dynamic type the [switch] asserts for
    each: [true] for string, [false] for float64. *)
Definition fixed_fields : list (string * bool) :=
  [ ("version", true); ("host", true); ("short_message", true);
    ("full_message", true); ("timestamp", false); ("level", false);
    ("facility", true); ("file", true); ("line", false) ]%string.

Definition has_type (is_string : bool) (v : @value float64) : bool :=
  match v, is_string with
  | JStr _, true => true
  | JNum _, false => true
  | _, _ => false
  end.

(** A known fixed-field key with a value of another JSON type than the
    one the field has. *)
Definition mistyped (kv : string * @value float64) : Prop :=
  ∃ t, (kv.1, t) ∈ fixed_fields ∧ has_type t kv.2 = false.

(** The object that holds the fixed fields of [m], level and line being
    the numbers [fl] and [fn]. *)
Definition fixed_entries (m : @Message float64) (fl fn : float64)
  : list (string * @value float64) :=
  [ ("version", JStr (Version m)); ("host", JStr (Host m));
    ("short_message", JStr (Short m)); ("full_message", JStr (Full m));
    ("timestamp", JNum (TimeUnix m)); ("level", JNum fl);
    ("facility", JStr (Facility m)); ("file", JStr (File m));
    ("line", JNum fn) ]%string.

Definition fixed_object (m : @Message float64) (fl fn : float64)
  : gmap string (@value float64) :=
  list_to_map (fixed_entries m fl fn).

(** The decoder reads the object that the encoder writes for [m] back as
    the object of its values, level and line being numbers that convert
    back to them. *)
Definition decodes_to_object (m : @Message float64) : Prop :=
  ∃ ts ems fl fn,
    enc_float J (TimeUnix m) = Some ts
    ∧ mapM (encode_entry J) (sorted_entries (entries (Extra m))) = Some ems
    ∧ Unmarshal J (render_object (fixed_members J m ts ++ ems))
      = Some (fixed_object m fl fn ∪ entries (Extra m))
    ∧ int32_of_float64 J fl = Level m
    ∧ int_of_float64 J fn = Line m.

(** What is assumed of [json.Unmarshal], for a relation [reads] between
    a JSON text and the value the decoder reads it as: an object written
    member by member, every key and value in a form the decoder reads and
    no key twice, decodes to the map of these members; and the decoder
    reads the quoted name of each fixed field as that name. *)
Definition reads_objects (reads : list byte -> @value float64 -> Prop)
  : Prop :=
  (forall (ms : list (list byte * list byte))
          (kvs : list (string * @value float64)),
     Forall2 (fun mb kv => reads mb.1 (JStr kv.1) ∧ reads mb.2 kv.2) ms kvs ->
     NoDup kvs.*1 ->
     Unmarshal J (render_object ms) = Some (list_to_map kvs))
  ∧ Forall (fun name => reads (quote name) (JStr name)) fixed_fields.*1.

(** The values of [m] are JSON-faithful: the decoder reads the encoding
    of each string field as that string, of the timestamp as that number,
    of level and line as numbers that convert back to them, and of each
    extension key and value as that key and value. *)
Definition json_faithful (reads : list byte -> @value float64 -> Prop)
    (m : @Message float64) : Prop :=
  Forall (fun s => reads (enc_string J s) (JStr s))
    [Version m; Host m; Short m; Full m; Facility m; File m]
  ∧ (∃ ts, enc_float J (TimeUnix m) = Some ts ∧ reads ts (JNum (TimeUnix m)))
  ∧ (∃ fl, reads (enc_int J (Level m)) (JNum fl)
           ∧ int32_of_float64 J fl = Level m)
  ∧ (∃ fn, reads (enc_int J (Line m)) (JNum fn)
           ∧ int_of_float64 J fn = Line m)
  ∧ (forall k v, entries (Extra m) !! k = Some v ->
       reads (enc_string J k) (JStr k)
       ∧ ∃ b, enc_value J v = Some b ∧ reads b v).

(** [get] is the field that the key [name] sets, from a value that
    [read] accepts. *)
Definition sets {A} (get : @Message float64 -> A) (name : string)
    (read : @value float64 -> option A) : Prop :=
  forall m k v,
    get (step m (k, v))
    = match (if String.eqb k name then read v else None) with
      | Some a => a
      | None => get m
      end.

Definition read_string (v : @value float64) : option string :=
  match v with JStr s => Some s | _ => None end.
Definition read_float (v : @value float64) : option float64 :=
  match v with JNum f => Some f | _ => None end.
Definition read_int32 (v : @value float64) : option Z :=
  match v with JNum f => Some (int32_of_float64 J f) | _ => None end.
Definition read_int (v : @value float64) : option Z :=
  match v with JNum f => Some (int_of_float64 J f) | _ => None end.

End CodecSpec.

(** What the loop needs of its starting point: every chunk still to be
    cut starts inside the buffer. *)
Definition loop_inv (z : list byte) (i : Z) (k : nat) : Prop :=
  0 <= i ∧ ((0 < k)%nat -> (i + Z.of_nat k - 1) * chunkedDataLen <= blen z).

(** The value of [bytesLeft] when the loop ends after the chunks
    [i .. i+k-1]. *)
Definition bytesLeft_after (z : list byte) (i : Z) (k : nat) (bl : Z) : Z :=
  match k with
  | O => bl
  | S _ => Z.max 0 (blen z - (i + Z.of_nat k) * chunkedDataLen)
  end.

(** The message identifier [writeChunked] draws in world [w]. *)
Definition msgId_of (E : env) (w : world) : list byte :=
  fill8 (rr_bytes (urandom E (draws w))).

(** The random source fills the buffer: no error and a count of 8. *)
Definition rand_ok (E : env) (w : world) : Prop :=
  rr_err (urandom E (draws w)) = None ∧ rr_n (urandom E (draws w)) = 8.

Global Instance rand_ok_dec E w : Decision (rand_ok E w).
Proof. unfold rand_ok. apply _. Defined.

(** The datagrams a send of [zBytes] consists of, in world [w]: the chunk
    sequence, or the buffer itself. *)
Definition datagrams (E : env) (zBytes : list byte) (w : world)
  : list (list byte) :=
  if decide (numChunks zBytes > 1)
  then frames (msgId_of E w) (numChunks zBytes) zBytes 0
         (Z.to_nat (numChunks zBytes))
  else [zBytes].

(** What the unchunked branch of [WriteMessage] returns for the report of
    [conn.Write] on the buffer. *)
Definition single_write_result (E : env) (h : list (list byte))
    (zBytes : list byte) : res unit :=
  match udp E h zBytes with
  | (_, Some e) => Err (ErrLib e)
  | (n, None) =>
    if decide (n ≠ blen zBytes) then Err (ErrBadWrite n (blen zBytes))
    else Ok tt
  end.

(** ** Reference libraries

    Small stand-ins for the libraries, used to run the model on concrete
    inputs: a compressor that stores its input behind the magic bytes of
    the format, and a JSON codec over integer numbers that writes strings
    without escapes and reads flat objects of strings, numbers, booleans
    and null. *)

Definition magicZlib : list byte := [x78].
Definition magicGzip : list byte := [x1f; x8b].

Definition stored : flate_lib :=
  FlateLib
    (fun _ level => if decide (-2 <= level ∧ level <= 9) then None
                    else Some "invalid compression level"%string)
    (fun t _ b => inr ((if decide (t = CompressGzip) then magicGzip
                        else magicZlib) ++ b)).

Module RefJSON.

Definition digit_byte (d : Z) : byte := uint8_byte (48 + d).

Fixpoint digits_of (fuel : nat) (n : Z) (acc : list byte) : list byte :=
  match fuel with
  | O => acc
  | S fuel' =>
    let acc' := digit_byte (n mod 10) :: acc in
    if decide (n / 10 = 0) then acc' else digits_of fuel' (n / 10) acc'
  end.

Definition decimal (n : Z) : list byte :=
  let fuel := S (Z.to_nat (Z.log2 (Z.abs n))) in
  if decide (n < 0) then x2d :: digits_of fuel (- n) []
  else digits_of fuel n [].

Definition is_digit (c : byte) : bool :=
  (48 <=? byte_val c) && (byte_val c <=? 57).

Fixpoint scan_digits (b : list byte) : list byte * list byte :=
  match b with
  | c :: r =>
    if is_digit c then let '(ds, r') := scan_digits r in (c :: ds, r')
    else ([], b)
  | [] => ([], [])
  end.

Definition number_of (ds : list byte) : option Z :=
  match ds with
  | [] => None
  | _ => Some (fold_left (fun acc c => acc * 10 + (byte_val c - 48)) ds 0)
  end.

(** The bytes of a string literal after its opening quote, up to the
    closing one; a backslash is not read. *)
Fixpoint scan_string (b : list byte) : option (list byte * list byte) :=
  match b with
  | [] => None
  | c :: r =>
    if Byte.eqb c dquote then Some ([], r)
    else if Byte.eqb c x5c then None
    else '(s, r') ← scan_string r; Some (c :: s, r')
  end.

Definition strip_prefix (p b : list byte) : option (list byte) :=
  if decide (take (length p) b = p) then Some (drop (length p) b) else None.

Definition parse_scalar (b : list byte) : option (@value Z * list byte) :=
  match b with
  | [] => None
  | c :: r =>
    if Byte.eqb c dquote then
      '(s, r') ← scan_string r; Some (JStr (string_of_list_byte s), r')
    else if Byte.eqb c x2d then
      let '(ds, r') := scan_digits r in
      n ← number_of ds; Some (JNum (- n), r')
    else if is_digit c then
      let '(ds, r') := scan_digits b in
      n ← number_of ds; Some (JNum n, r')
    else
      match strip_prefix (list_byte_of_string "null") b with
      | Some r' => Some (JNull, r')
      | None =>
        match strip_prefix (list_byte_of_string "true") b with
        | Some r' => Some (JBool true, r')
        | None =>
          r' ← strip_prefix (list_byte_of_string "false") b;
          Some (JBool false, r')
        end
      end
  end.

(** The members of an object, after the opening brace. *)
Fixpoint parse_members (fuel : nat) (b : list byte)
    (acc : gmap string (@value Z)) : option (gmap string (@value Z)) :=
  match fuel with
  | O => None
  | S fuel' =>
    match parse_scalar b with
    | Some (JStr k, c :: r2) =>
      if Byte.eqb c colon then
        match parse_scalar r2 with
        | Some (v, c3 :: r4) =>
          let acc' := <[k := v]> acc in
          if Byte.eqb c3 comma then parse_members fuel' r4 acc'
          else if Byte.eqb c3 rbrace then
            match r4 with [] => Some acc' | _ => None end
          else None
        | _ => None
        end
      else None
    | _ => None
    end
  end.

Definition Unmarshal (b : list byte) : option (gmap string (@value Z)) :=
  match b with
  | c :: r =>
    if Byte.eqb c lbrace then
      if decide (r = [rbrace]) then Some ∅
      else parse_members (length r) r ∅
    else None
  | [] => None
  end.

Definition enc_value (v : @value Z) : option (list byte) :=
  match v with
  | JNull => Some (list_byte_of_string "null")
  | JBool true => Some (list_byte_of_string "true")
  | JBool false => Some (list_byte_of_string "false")
  | JNum n => Some (decimal n)
  | JStr s => Some (quote s)
  | JArr _ | JObj _ => None
  end.

Definition lib : @json_lib Z :=
  JsonLib quote (fun n => Some (decimal n)) decimal enc_value Some
    Unmarshal (fun n => n) (fun n => n).

(** A byte that can follow a key or a value inside an object. *)
Definition is_delim (c : byte) : bool :=
  Byte.eqb c colon || Byte.eqb c comma || Byte.eqb c rbrace.

(** The reference decoder reads the text [t] as the value [v]: it does
    so whenever [t] stands in front of a delimiter. *)
Definition reads (t : list byte) (v : @value Z) : Prop :=
  forall c r, is_delim c = true -> parse_scalar (t ++ c :: r) = Some (v, c :: r).

End RefJSON.

(** A message with one extension entry, and the zero message. *)
Definition example_msg : @Message Z :=
  mkMessage "1.1" "host" "boot" "" 17 6 "gelf" "" 0
    (Some {[ "_user_id"%string := JNum 42 ]}).

Definition zero_msg : @Message Z :=
  mkMessage "" "" "" "" 0 0 "" "" 0 None.

(** A message too long for one datagram when it is not compressed. *)
Definition big_msg : @Message Z :=
  mkMessage "1.1" "host" "boot"
    (string_of_list_byte (replicate 3000 "a"%byte)) 17 6 "gelf" "" 0 None.

Definition big_z : list byte :=
  render_object (fixed_members RefJSON.lib big_msg (RefJSON.decimal 17)).

Definition example_z : list byte :=
  render_object
    (fixed_members RefJSON.lib example_msg (RefJSON.decimal 17)
     ++ [(quote "_user_id", RefJSON.decimal 42)]).

(** A writer set to send without compression. *)
Definition plain_writer : UDPWriter :=
  mkUDPWriter "host" "gelf" BestSpeed NoCompress None 0 0.

(** The caller's assignment to the exported fields [CompressionType] and
    [CompressionLevel]. *)
Definition set_Compression (t level : Z) (u : UDPWriter) : UDPWriter :=
  mkUDPWriter (hostname u) (WriterFacility u) level t (zw u)
    (zwCompressionLevel u) (zwCompressionType u).

(** ** What a run of the decoding loop leaves in a message *)

Section DecodeSpec.
Context {float64 : Type}.
Variable J : @json_lib float64.

(** The value of a field after the loop: what the entry with the field's
    key gives, or the old value when the object has no such entry. *)
Definition field_after {A} (i : gmap string (@value float64))
    (name : string) (read : @value float64 -> option A) (old : A) : A :=
  match i !! name with
  | Some v => default old (read v)
  | None => old
  end.

(** The entries whose key starts with an underscore. *)
Definition underscored (i : gmap string (@value float64))
  : gmap string (@value float64) :=
  filter (fun kv => starts_underscore kv.1 = true) i.

(** The message [m] after the entries of the object [i] have been
    visited. *)
Definition absorbed (i : gmap string (@value float64))
    (m : @Message float64) : @Message float64 :=
  mkMessage
    (field_after i "version" read_string (Version m))
    (field_after i "host" read_string (Host m))
    (field_after i "short_message" read_string (Short m))
    (field_after i "full_message" read_string (Full m))
    (field_after i "timestamp" read_float (TimeUnix m))
    (field_after i "level" (read_int32 J) (Level m))
    (field_after i "facility" read_string (Facility m))
    (field_after i "file" read_string (File m))
    (field_after i "line" (read_int J) (Line m))
    (if decide (underscored i = ∅) then Extra m
     else Some (underscored i ∪ entries (Extra m))).

End DecodeSpec.

(** ** Write: a byte stream as one message *)

(** The library calls of [Write] besides those of [WriteMessage]:
    [bytes.TrimSpace], and the reading of the clock with the two float
    operations applied to it. *)
Record write_lib {float64 : Type} := WriteLib {
  TrimSpace : list byte -> list byte;
  UnixNano : Z;                              (* time.Now().UnixNano() *)
  float64_of_int64 : Z -> float64;           (* float64(n) *)
  float_div : float64 -> float64 -> float64; (* x / y *)
  float_1000 : float64                       (* the constant 1000. *)
}.
Arguments write_lib : clear implicits.

(** [bytes.IndexRune(p, r)] for a rune below [utf8.RuneSelf], which is
    [bytes.IndexByte]: the index of the first byte equal to [c], or -1. *)
Definition IndexByte (p : list byte) (c : byte) : Z :=
  match list_find (fun b => b = c) p with
  | Some (i, _) => Z.of_nat i
  | None => -1
  end.

Definition newline : byte := x0a.

Section Write.
Context {float64 : Type}.
Variable J : @json_lib float64.
Variable F : flate_lib.
Variable E : env.
Variable T : write_lib float64.

(** The two parts [short] and [full] cut from the trimmed input. *)
Definition split_lines (p : list byte) : res (list byte * list byte) :=
  let i := IndexByte p newline in
  if decide (i > 0) then
    match go_slice p 0 i with
    | Some short => Ok (short, p)
    | None => Panic IndexOutOfRange
    end
  else Ok (p, []).

(** The message [Write] builds from the trimmed input and its parts. *)
Definition Write_message (u : UDPWriter) (short full : list byte)
  : @Message float64 :=
  mkMessage "1.0" (hostname u) (string_of_list_byte short)
    (string_of_list_byte full)
    (float_div T (float64_of_int64 T (Z.quot (UnixNano T) 1000000))
       (float_1000 T))
    6 (WriterFacility u) "" 0 (Some ∅).

(** [w.Write(p)]: the count [n] with a nil error, or the error (with the
    count 0). *)
Definition Write (p : list byte) (u : UDPWriter) (w : world)
  : UDPWriter * world * res Z :=
  let p := TrimSpace T p in
  match split_lines p with
  | Ok (short, full) =>
    match WriteMessage J F E (Write_message u short full) u w with
    | (u', w', Ok _) => (u', w', Ok (blen p))
    | (u', w', Err e) => (u', w', Err e)
    | (u', w', Panic q) => (u', w', Panic q)
    end
  | Err e => (u, w, Err e)
  | Panic q => (u, w, Panic q)
  end.

End Write.

(** ** HTTPWriter *)

(** A request handed to [httpClient.Post]: URL, content type, body. *)
Record request := Request {
  req_url : string;
  req_type : string;
  req_body : list byte
}.

(** What [Post] returns for a request, given the requests made before:
    an error, or a response with its [StatusCode] and [Status]. *)
Definition http_env : Type :=
  list request -> request -> string + (Z * string).

Section HTTP.
Context {float64 : Type}.
Variable J : @json_lib float64.
Variable H : http_env.

(** [h.WriteMessage(m)] for a writer with address [addr]; [posted] are
    the requests made so far. *)
Definition HTTP_WriteMessage (addr : string) (m : @Message float64)
    (posted : list request) : list request * res unit :=
  match json_Marshal J m with
  | Err e => (posted, Err e)
  | Panic q => (posted, Panic q)
  | Ok mBytes =>
    let rq := Request addr "application/json" mBytes in
    match H posted rq with
    | inl e => (posted ++ [rq], Err (ErrLib e))
    | inr (code, status) =>
      if decide (code ≠ 202)
      then (posted ++ [rq],
            Err (ErrLib ("got code " ++ status ++ ", expected 202")))
      else (posted ++ [rq], Ok tt)
    end
  end.

End HTTP.

(** ** More reference environments *)

(** [bytes.TrimSpace] on input made of ASCII bytes: the six ASCII white
    space bytes are cut from both ends. *)
Definition ascii_space (b : byte) : bool :=
  bool_decide (b ∈ [x09; x0a; x0b; x0c; x0d; x20]).

Fixpoint trim_left (p : list byte) : list byte :=
  match p with
  | b :: r => if ascii_space b then trim_left r else p
  | [] => []
  end.

Definition trim_ascii (p : list byte) : list byte :=
  reverse (trim_left (reverse (trim_left p))).

(** A clock that reads 1.5 s after the epoch, with integers for floats:
    the quotient stands for the float division. *)
Definition ref_write_lib : write_lib Z :=
  WriteLib Z trim_ascii 1500000000 (fun n => n) Z.quot 1000.

(** ** More reference inputs *)

(** A writer with a compression type that is none of the constants. *)
Definition odd_writer : UDPWriter :=
  set_Compression 7 BestSpeed (newUDPWriter "host" "gelf").

(** A message with one extension key that starts with an underscore and
    one that does not. *)
Definition mixed_msg : @Message Z :=
  mkMessage "1.1" "host" "boot" "" 17 6 "gelf" "" 0
    (Some (<[ "user"%string := JNum 1 ]> {[ "_id"%string := JNum 2 ]})).

(** An object with a fixed field, a key that is neither a fixed name nor
    an extension, and an extension entry. *)
Definition mixed_data : list byte :=
  render_object [ (quote "version", quote "1.1");
                  (quote "color", quote "red");
                  (quote "_id", RefJSON.decimal 7) ].

Definition mixed_object : gmap string (@value Z) :=
  <[ "version"%string := JStr "1.1" ]>
    (<[ "color"%string := JStr "red" ]> {[ "_id"%string := JNum 7 ]}).

(** Two lines with white space around them. *)
Definition two_lines : list byte :=
  [x20] ++ list_byte_of_string "boot" ++ [x0a]
  ++ list_byte_of_string "detail" ++ [x0a].

(** ** Chunking: lemmas *)

Lemma blen_nonneg (b : list byte) : 0 <= blen b.
Proof. unfold blen. lia. Qed.

Lemma blen_app (a b : list byte) : blen (a ++ b) = blen a + blen b.
Proof. unfold blen. rewrite length_app. lia. Qed.

Lemma numChunks_spec (b : list byte) :
  numChunks b = if decide (blen b <= 1420) then 1 else blen b / 1408 + 1.
Proof. reflexivity. Qed.

Lemma numChunks_pos (b : list byte) : 1 <= numChunks b.
Proof.
  rewrite numChunks_spec. destruct (decide _); [lia|].
  pose proof (blen_nonneg b).
  assert (0 <= blen b / 1408) by (apply Z.div_pos; lia). lia.
Qed.

(** The last chunk starts inside the buffer. *)
Lemma numChunks_last_start (b : list byte) :
  (numChunks b - 1) * chunkedDataLen <= blen b.
Proof.
  rewrite numChunks_spec. unfold chunkedDataLen, ChunkSize, chunkedHeaderLen.
  pose proof (blen_nonneg b).
  destruct (decide _); [lia|].
  pose proof (Z.mul_div_le (blen b) 1408). lia.
Qed.

(** With two chunks or more, the chunks cover the buffer. *)
Lemma numChunks_cover (b : list byte) :
  1 < numChunks b -> blen b < numChunks b * chunkedDataLen.
Proof.
  rewrite numChunks_spec. unfold chunkedDataLen, ChunkSize, chunkedHeaderLen.
  destruct (decide _); [lia|]. intros _.
  pose proof (Z.mod_pos_bound (blen b) 1408).
  pose proof (Z.div_mod (blen b) 1408). lia.
Qed.

(** The slice the loop takes for chunk [i] is the payload [chunk_of]. *)
Lemma go_slice_chunk (z : list byte) (i bytesLeft : Z) :
  0 <= i -> i * chunkedDataLen <= blen z ->
  bytesLeft = blen z - i * chunkedDataLen ->
  go_slice z (i * chunkedDataLen)
    (i * chunkedDataLen
     + (if decide (chunkedDataLen > bytesLeft) then bytesLeft
        else chunkedDataLen))
  = Some (chunk_of z i).
Proof.
  intros Hi Hoff ->. unfold go_slice, chunk_of.
  assert (HD : chunkedDataLen = 1408) by reflexivity.
  rewrite HD in *.
  destruct (decide (1408 > _)) as [Hlt|Hge].
  - rewrite decide_True by lia. f_equal.
    rewrite !take_ge; [done| |]; rewrite length_drop; unfold blen in *; lia.
  - rewrite decide_True by lia. f_equal. f_equal. lia.
Qed.

Lemma frames_app id n z i c1 c2 :
  frames id n z i (c1 + c2)
  = frames id n z i c1 ++ frames id n z (i + Z.of_nat c1) c2.
Proof.
  revert i. induction c1 as [|c1 IH]; intros i; simpl.
  - by rewrite Z.add_0_r.
  - rewrite IH. do 3 f_equal. lia.
Qed.

Lemma frames_snoc id n z i c :
  frames id n z i (S c)
  = frames id n z i c ++ [frame id n z (i + Z.of_nat c)].
Proof. replace (S c) with (c + 1)%nat by lia. by rewrite frames_app. Qed.

Lemma length_frames id n z i c : length (frames id n z i c) = c.
Proof. revert i. induction c; intros; simpl; auto. Qed.

Lemma lookup_frames id n z i c (j : nat) :
  (j < c)%nat ->
  frames id n z i c !! j = Some (frame id n z (i + Z.of_nat j)).
Proof.
  revert i j. induction c as [|c IH]; intros i j Hj; [lia|].
  destruct j as [|j]; simpl.
  - by rewrite Z.add_0_r.
  - rewrite IH by lia. do 2 f_equal. lia.
Qed.

(** One iteration of the loop: the datagram of chunk [i] is handed to the
    connection, and the loop goes on exactly when the write is good. *)
Lemma chunk_loop_step E k i n id z bl w :
  0 <= i -> i * chunkedDataLen <= blen z ->
  bl = blen z - i * chunkedDataLen ->
  chunk_loop E (S k) i n id z bl w =
    let b := frame id n z i in
    let w' := World (sent w ++ [b]) (draws w) (built w) in
    if decide (accepted E (sent w) b)
    then chunk_loop E k (i + 1) n id z
           (bl - (if decide (chunkedDataLen > bl) then bl
                  else chunkedDataLen)) w'
    else (w', Err (chunk_write_error E (sent w) i n b)).
Proof.
  intros Hi Hoff Hbl. cbn [chunk_loop].
  rewrite (go_slice_chunk z i bl Hi Hoff Hbl).
  cbn zeta. fold (frame id n z i).
  destruct (decide (accepted E (sent w) (frame id n z i))) as [Ha|Ha];
    unfold conn_Write, chunk_write_error; unfold accepted in Ha;
    destruct (udp E (sent w) (frame id n z i)) as [m [e|]];
    cbn [fst snd] in *.
  - by destruct Ha.
  - destruct Ha as [_ ->]. by rewrite decide_False by (intros ?; done).
  - done.
  - rewrite decide_True; [done|]. intros ->. by apply Ha.
Qed.

Lemma loop_inv_start (z : list byte) :
  loop_inv z 0 (Z.to_nat (numChunks z)).
Proof.
  split; [lia|]. intros _. pose proof (numChunks_pos z).
  pose proof (numChunks_last_start z).
  replace (0 + Z.of_nat (Z.to_nat (numChunks z)) - 1)
    with (numChunks z - 1) by lia.
  done.
Qed.

Lemma loop_inv_next z i k :
  loop_inv z i (S k) ->
  i * chunkedDataLen <= blen z ∧ loop_inv z (i + 1) k.
Proof.
  unfold loop_inv, chunkedDataLen, ChunkSize, chunkedHeaderLen.
  intros [Hi Hk]. specialize (Hk ltac:(lia)). repeat split; lia.
Qed.

(** [bytesLeft] after the iteration of chunk [i], when [k] more follow. *)
Lemma bytesLeft_next z i k bl :
  loop_inv z i (S k) -> (0 < k)%nat ->
  bl = blen z - i * chunkedDataLen ->
  bl - (if decide (chunkedDataLen > bl) then bl else chunkedDataLen)
  = blen z - (i + 1) * chunkedDataLen.
Proof.
  unfold loop_inv, chunkedDataLen, ChunkSize, chunkedHeaderLen.
  intros [Hi Hk] Hpos ->. specialize (Hk ltac:(lia)).
  destruct (decide _); lia.
Qed.

(** When every write is good the loop hands all [k] datagrams to the
    connection, in order, and ends normally. *)
Lemma chunk_loop_accepted E id n z k : forall i bl w,
  loop_inv z i k ->
  bl = blen z - i * chunkedDataLen ->
  all_accepted E (sent w) (frames id n z i k) ->
  chunk_loop E k i n id z bl w
  = (World (sent w ++ frames id n z i k) (draws w) (built w),
     Ok (bytesLeft_after z i k bl)).
Proof.
  induction k as [|k IH]; intros i bl w Hinv Hbl Hacc.
  - simpl. rewrite app_nil_r. by destruct w.
  - destruct (loop_inv_next _ _ _ Hinv) as [Hoff Hinv'].
    destruct Hacc as [Ha Hacc].
    rewrite chunk_loop_step by (done || apply Hinv). cbn zeta.
    rewrite decide_True by done.
    destruct k as [|k].
    + simpl. rewrite Hbl. do 3 f_equal.
      unfold chunkedDataLen, ChunkSize, chunkedHeaderLen in *.
      destruct (decide _); lia.
    + rewrite IH;
        [| done | apply (bytesLeft_next z i (S k)); [done|lia|done] | done].
      cbn [sent draws built frames]. rewrite <- app_assoc. cbn [app].
      do 2 f_equal. unfold bytesLeft_after. f_equal. lia.
Qed.

(** When the write of chunk [i+j] is the first that is not good, the loop
    stops there with its error: the datagrams [i .. i+j] were handed to
    the connection and none after them. *)
Lemma chunk_loop_refused E id n z j : forall k i bl w,
  (j < k)%nat ->
  loop_inv z i k ->
  bl = blen z - i * chunkedDataLen ->
  all_accepted E (sent w) (frames id n z i j) ->
  ¬ accepted E (sent w ++ frames id n z i j)
      (frame id n z (i + Z.of_nat j)) ->
  chunk_loop E k i n id z bl w
  = (World (sent w ++ frames id n z i (S j)) (draws w) (built w),
     Err (chunk_write_error E (sent w ++ frames id n z i j)
            (i + Z.of_nat j) n (frame id n z (i + Z.of_nat j)))).
Proof.
  induction j as [|j IH]; intros k i bl w Hjk Hinv Hbl Hacc Hrej;
    (destruct k as [|k]; [lia|]);
    destruct (loop_inv_next _ _ _ Hinv) as [Hoff Hinv'];
    rewrite chunk_loop_step by (done || apply Hinv); cbn zeta.
  - simpl in Hrej. rewrite app_nil_r, Z.add_0_r in Hrej.
    rewrite decide_False by done. simpl.
    by rewrite app_nil_r, Z.add_0_r.
  - destruct Hacc as [Ha Hacc]. rewrite decide_True by done.
    cbn [frames] in Hrej. 
    rewrite (IH k (i + 1));
      [| lia | done | apply (bytesLeft_next z i k); [done|lia|done] | done |].
    + cbn [sent draws built]. rewrite <- !app_assoc. cbn [app frames].
      replace (i + 1 + Z.of_nat j) with (i + Z.of_nat (S j)) by lia.
      done.
    + cbn [sent]. rewrite <- app_assoc. cbn [app].
      replace (i + 1 + Z.of_nat j) with (i + Z.of_nat (S j)) by lia.
      done.
Qed.

Lemma take_frames id n z i c j :
  (j <= c)%nat -> take j (frames id n z i c) = frames id n z i j.
Proof.
  intros Hj. replace c with (j + (c - j))%nat by lia.
  rewrite frames_app. apply take_app_length'. by rewrite length_frames.
Qed.

(** Either every write of a sequence is good, or there is a first one
    that is not. *)
Lemma accepted_or_refused E fs : forall h,
  all_accepted E h fs
  ∨ ∃ (j : nat) f, fs !! j = Some f
      ∧ all_accepted E h (take j fs)
      ∧ ¬ accepted E (h ++ take j fs) f.
Proof.
  induction fs as [|f fs IH]; intros h; [by left|].
  destruct (decide (accepted E h f)) as [Ha|Ha].
  - destruct (IH (h ++ [f])) as [Hall|(j & g & Hj & Hall & Hrej)].
    + left. by split.
    + right. exists (S j), g. cbn [take all_accepted]. split; [done|].
      split; [done|]. by rewrite <- app_assoc in Hrej.
  - right. exists 0%nat, f. simpl. by rewrite app_nil_r.
Qed.

(** The loop never panics; it hands a leading part of the chunk sequence
    to the connection and touches nothing else. *)
Lemma chunk_loop_sent E id n z k i bl w :
  loop_inv z i k ->
  bl = blen z - i * chunkedDataLen ->
  ∃ (c : nat) r,
    (c <= k)%nat
    ∧ chunk_loop E k i n id z bl w
      = (World (sent w ++ frames id n z i c) (draws w) (built w), r)
    ∧ is_panic r = false
    ∧ (r = Ok (bytesLeft_after z i k bl) ∧ c = k ∨ is_err r = true).
Proof.
  intros Hinv Hbl.
  destruct (accepted_or_refused E (frames id n z i k) (sent w))
    as [Hall|(j & f & Hj & Hall & Hrej)].
  - exists k, (Ok (bytesLeft_after z i k bl)).
    rewrite (chunk_loop_accepted E id n z k i bl w) by done.
    split; [lia|]. split; [done|]. split; [done|]. by left.
  - assert (Hjk : (j < k)%nat).
    { apply lookup_lt_Some in Hj. by rewrite length_frames in Hj. }
    rewrite lookup_frames in Hj by done. injection Hj as <-.
    rewrite take_frames in Hall, Hrej by lia.
    eexists (S j), _. split; [lia|]. split.
    + by apply chunk_loop_refused.
    + split; [done|]. by right.
Qed.

(** *** writeChunked as a whole *)

Lemma length_fill8 bs : length (fill8 bs) = 8%nat.
Proof.
  unfold fill8. rewrite length_take, length_app, length_replicate. lia.
Qed.

Lemma writeChunked_too_large E z w :
  numChunks z > 255 ->
  writeChunked E z w = (w, Err (ErrTooLarge (numChunks z))).
Proof. intros H. unfold writeChunked. by rewrite decide_True. Qed.

Lemma writeChunked_rand_fails E z w :
  numChunks z <= 255 -> ¬ rand_ok E w ->
  writeChunked E z w
  = (World (sent w) (S (draws w)) (built w),
     Err (ErrRand (rr_n (urandom E (draws w)))
                  (rr_err (urandom E (draws w))))).
Proof.
  intros Hn Hr. unfold writeChunked, rand_ReadFull.
  rewrite decide_False by lia. cbn zeta.
  rewrite decide_True; [done|].
  unfold rand_ok in Hr. apply not_and_l in Hr. done.
Qed.

(** Two chunks or more: nothing is left when the loop has run through. *)
Lemma bytesLeft_after_all z :
  1 < numChunks z ->
  bytesLeft_after z 0 (Z.to_nat (numChunks z)) (blen z) = 0.
Proof.
  intros Hn. pose proof (numChunks_cover z Hn) as Hc.
  unfold bytesLeft_after.
  destruct (Z.to_nat (numChunks z)) as [|k] eqn:Hk; [lia|].
  rewrite <- Hk. rewrite Z2Nat.id by lia. lia.
Qed.

Lemma writeChunked_accepted E z w :
  1 < numChunks z -> numChunks z <= 255 -> rand_ok E w ->
  all_accepted E (sent w)
    (frames (msgId_of E w) (numChunks z) z 0 (Z.to_nat (numChunks z))) ->
  writeChunked E z w
  = (World (sent w ++ frames (msgId_of E w) (numChunks z) z 0
                        (Z.to_nat (numChunks z)))
           (S (draws w)) (built w),
     Ok tt).
Proof.
  intros Hn1 Hn [He Hr] Hall. unfold writeChunked, rand_ReadFull.
  rewrite decide_False by lia. cbn zeta.
  rewrite decide_False by (intros [?|?]; done).
  rewrite (chunk_loop_accepted E _ _ z);
    [| apply loop_inv_start | cbn; lia | done].
  rewrite bytesLeft_after_all by done. cbn [sent draws built].
  by rewrite decide_False by (intros ?; done).
Qed.

Lemma writeChunked_refused E z w (j : nat) :
  numChunks z <= 255 -> rand_ok E w ->
  Z.of_nat j < numChunks z ->
  all_accepted E (sent w) (frames (msgId_of E w) (numChunks z) z 0 j) ->
  ¬ accepted E (sent w ++ frames (msgId_of E w) (numChunks z) z 0 j)
      (frame (msgId_of E w) (numChunks z) z (Z.of_nat j)) ->
  writeChunked E z w
  = (World (sent w ++ frames (msgId_of E w) (numChunks z) z 0 (S j))
           (S (draws w)) (built w),
     Err (chunk_write_error E
            (sent w ++ frames (msgId_of E w) (numChunks z) z 0 j)
            (Z.of_nat j) (numChunks z)
            (frame (msgId_of E w) (numChunks z) z (Z.of_nat j)))).
Proof.
  intros Hn [He Hr] Hj Hall Hrej. unfold writeChunked, rand_ReadFull.
  rewrite decide_False by lia. cbn zeta.
  rewrite decide_False by (intros [?|?]; done).
  rewrite (chunk_loop_refused E _ _ z j);
    [done | lia | apply loop_inv_start | cbn; lia | done | done].
Qed.

(** In every environment [writeChunked] returns without a panic, having
    handed a leading part of the chunk sequence to the connection. *)
Lemma writeChunked_sent E z w :
  ∃ (c : nat) w' r,
    writeChunked E z w = (w', r)
    ∧ Z.of_nat c <= numChunks z
    ∧ sent w' = sent w
               ++ frames (msgId_of E w) (numChunks z) z 0 c
    ∧ is_panic r = false
    ∧ (numChunks z > 255 -> c = 0%nat).
Proof.
  pose proof (numChunks_pos z) as Hpos.
  destruct (decide (numChunks z > 255)) as [Hbig|Hsmall].
  { exists 0%nat. eexists _, _. rewrite writeChunked_too_large by done.
    simpl. rewrite app_nil_r. repeat split; auto; lia. }
  destruct (decide (rand_ok E w)) as [Hr|Hr].
  2:{ exists 0%nat. eexists _, _.
      rewrite writeChunked_rand_fails by (done || lia).
      simpl. rewrite app_nil_r. repeat split; auto; lia. }
  destruct (chunk_loop_sent E (msgId_of E w) (numChunks z) z
              (Z.to_nat (numChunks z)) 0 (blen z)
              (World (sent w) (S (draws w)) (built w)))
    as (c & r & Hc & Hloop & Hp & Hr').
  { apply loop_inv_start. } { cbn; lia. }
  destruct Hr as [He Hn8].
  exists c. unfold writeChunked, rand_ReadFull.
  rewrite decide_False by lia. cbn zeta.
  rewrite decide_False by (intros [?|?]; done).
  fold (msgId_of E w). rewrite Hloop. cbn [sent] in *.
  destruct r as [b|e|p]; [|eexists _, _; repeat split; auto; lia|done].
  destruct (decide (b ≠ 0)); eexists _, _; repeat split; auto; lia.
Qed.

(** *** The header and the payloads *)

Lemma byte_val_uint8 (j : Z) : 0 <= j < 256 -> byte_val (uint8_byte j) = j.
Proof.
  intros Hj. unfold byte_val, uint8_byte. rewrite Z.mod_small by done.
  destruct (Byte.of_N (Z.to_N j)) as [b|] eqn:Hb; simpl.
  - apply Byte.to_of_N in Hb. lia.
  - apply Byte.of_N_None_iff in Hb. lia.
Qed.

Lemma payload_chunk_datagram id i n chunk :
  length id = 8%nat -> payload (chunk_datagram id i n chunk) = chunk.
Proof.
  intros Hid. unfold payload, chunk_datagram, magicChunked.
  change (Z.to_nat chunkedHeaderLen) with 12%nat.
  replace ([x1e; x0f] ++ id ++ [uint8_byte i] ++ [uint8_byte n] ++ chunk)
    with (([x1e; x0f] ++ id ++ [uint8_byte i; uint8_byte n]) ++ chunk)
    by (by rewrite <- !app_assoc).
  apply drop_app_length'. simpl. rewrite length_app, Hid. done.
Qed.

Lemma blen_chunk_datagram id i n chunk :
  length id = 8%nat ->
  blen (chunk_datagram id i n chunk) = chunkedHeaderLen + blen chunk.
Proof.
  intros Hid. unfold blen, chunk_datagram, magicChunked.
  rewrite !length_app, Hid. simpl. unfold chunkedHeaderLen. lia.
Qed.

Lemma blen_chunk_of z j : blen (chunk_of z j) <= chunkedDataLen.
Proof.
  unfold blen, chunk_of. rewrite length_take.
  change (Z.to_nat chunkedDataLen) with 1408%nat.
  change chunkedDataLen with 1408. lia.
Qed.

(** The payload of chunk [j] is the slice from [j * chunkedDataLen] up to
    the start of the next chunk or the end of the buffer. *)
Lemma chunk_of_slice z j :
  0 <= j -> j * chunkedDataLen <= blen z ->
  go_slice z (j * chunkedDataLen)
    (Z.min ((j + 1) * chunkedDataLen) (blen z))
  = Some (chunk_of z j).
Proof.
  intros Hj Hoff. unfold go_slice, chunk_of.
  assert (HD : chunkedDataLen = 1408) by reflexivity. rewrite HD in *.
  rewrite decide_True by lia. f_equal.
  destruct (Z.min_spec ((j + 1) * 1408) (blen z)) as [[Hlt ->]|[Hge ->]].
  - f_equal. lia.
  - rewrite !take_ge; [done| |]; rewrite length_drop; unfold blen in *; lia.
Qed.

(** Laid end to end, the payloads of the chunks [i .. i+c-1] are the
    bytes of the buffer from [i * chunkedDataLen] on, [c * chunkedDataLen]
    of them at most. *)
Lemma concat_payloads id n z c : forall i,
  length id = 8%nat -> 0 <= i ->
  concat (payload <$> frames id n z i c)
  = take (c * Z.to_nat chunkedDataLen)
         (drop (Z.to_nat (i * chunkedDataLen)) z).
Proof.
  induction c as [|c IH]; intros i Hid Hi; [done|].
  cbn [frames fmap list_fmap concat]. rewrite IH by (done || lia).
  unfold frame at 1. rewrite payload_chunk_datagram by done.
  unfold chunk_of.
  replace (Z.to_nat ((i + 1) * chunkedDataLen))
    with (Z.to_nat (i * chunkedDataLen) + Z.to_nat chunkedDataLen)%nat
    by (unfold chunkedDataLen, ChunkSize, chunkedHeaderLen; lia).
  by rewrite <- drop_drop, take_take_drop.
Qed.

Lemma concat_payloads_all id z :
  length id = 8%nat -> 1 < numChunks z ->
  concat (payload <$> frames id (numChunks z) z 0
                        (Z.to_nat (numChunks z))) = z.
Proof.
  intros Hid Hn. rewrite concat_payloads by (done || lia).
  simpl. rewrite drop_0. apply take_ge.
  pose proof (numChunks_cover z Hn) as Hc. unfold blen in Hc.
  unfold chunkedDataLen, ChunkSize, chunkedHeaderLen in *. lia.
Qed.

Lemma lookup_chunk_datagram_seq id i n chunk :
  length id = 8%nat ->
  chunk_datagram id i n chunk !! 10%nat = Some (uint8_byte i).
Proof.
  intros Hid. unfold chunk_datagram, magicChunked.
  do 9 (destruct id as [|? id]; [done|]). done.
Qed.

Lemma lookup_chunk_datagram_total id i n chunk :
  length id = 8%nat ->
  chunk_datagram id i n chunk !! 11%nat = Some (uint8_byte n).
Proof.
  intros Hid. unfold chunk_datagram, magicChunked.
  do 9 (destruct id as [|? id]; [done|]). done.
Qed.

(** ** Chunking: the claims *)

(** C1.  A buffer that needs between 2 and 255 chunks, sent over a
    connection that takes every write, with the random source filling the
    identifier: [writeChunked] succeeds and hands exactly [numChunks]
    datagrams to the connection.  The datagram at position [j] carries
    sequence index [j] and total [numChunks], its payload is the slice of
    the buffer from [j * chunkedDataLen] up to the start of the next chunk
    or the end of the buffer (so the slices are contiguous and do not
    overlap), the last payload is the remainder
    [len mod chunkedDataLen], and the payloads laid end to end in
    sequence order are the buffer. *)
Theorem writeChunked_reassembles (E : env) (z : list byte) (w : world) :
  2 <= numChunks z <= 255 ->
  rand_ok E w ->
  (forall h b, accepted E h b) ->
  ∃ ds : list (list byte),
    writeChunked E z w
      = (World (sent w ++ ds) (S (draws w)) (built w), Ok tt)
    ∧ Z.of_nat (length ds) = numChunks z
    ∧ (forall j : nat, Z.of_nat j < numChunks z ->
        ∃ d si tot,
          ds !! j = Some d
          ∧ d !! 10%nat = Some si ∧ byte_val si = Z.of_nat j
          ∧ d !! 11%nat = Some tot ∧ byte_val tot = numChunks z
          ∧ go_slice z (Z.of_nat j * chunkedDataLen)
              (Z.min ((Z.of_nat j + 1) * chunkedDataLen) (blen z))
            = Some (payload d))
    ∧ (∃ d, ds !! Z.to_nat (numChunks z - 1) = Some d
          ∧ blen (payload d) = blen z - (numChunks z - 1) * chunkedDataLen
          ∧ blen (payload d) = blen z mod chunkedDataLen)
    ∧ concat (payload <$> ds) = z.
Proof.
  intros [Hn2 Hn255] Hrand Hacc.
  set (n := numChunks z) in *. set (id := msgId_of E w).
  assert (Hid : length id = 8%nat) by apply length_fill8.
  assert (Hall : forall h fs, all_accepted E h fs).
  { intros h fs. revert h. induction fs; simpl; auto. }
  assert (Hat : forall j : nat, Z.of_nat j < n ->
            frames id n z 0 (Z.to_nat n) !! j
            = Some (frame id n z (Z.of_nat j))).
  { intros j Hj. rewrite lookup_frames by lia. f_equal. }
  assert (Hoff : forall j : nat, Z.of_nat j < n ->
            Z.of_nat j * chunkedDataLen <= blen z).
  { intros j Hj. pose proof (numChunks_last_start z) as Hl. fold n in Hl.
    unfold chunkedDataLen, ChunkSize, chunkedHeaderLen in *. nia. }
  exists (frames id n z 0 (Z.to_nat n)). repeat split.
  - apply writeChunked_accepted; [lia | done | done | apply Hall].
  - rewrite length_frames. lia.
  - intros j Hj. exists (frame id n z (Z.of_nat j)).
    exists (uint8_byte (Z.of_nat j)), (uint8_byte n). unfold frame.
    rewrite payload_chunk_datagram by done.
    repeat split.
    + by apply Hat.
    + by apply lookup_chunk_datagram_seq.
    + apply byte_val_uint8. lia.
    + by apply lookup_chunk_datagram_total.
    + apply byte_val_uint8. lia.
    + apply chunk_of_slice; [lia|by apply Hoff].
  - exists (frame id n z (n - 1)).
    assert (Hlen : blen (payload (frame id n z (n - 1)))
                   = blen z - (n - 1) * chunkedDataLen).
    { unfold frame. rewrite payload_chunk_datagram by done.
      pose proof (numChunks_cover z ltac:(fold n; lia)) as Hc.
      pose proof (numChunks_last_start z) as Hl. fold n in Hc, Hl.
      unfold blen, chunk_of in *. rewrite length_take, length_drop.
      unfold chunkedDataLen, ChunkSize, chunkedHeaderLen in *. lia. }
    split; [|split; [done|]].
    + rewrite (Hat (Z.to_nat (n - 1))) by lia. do 2 f_equal. lia.
    + rewrite Hlen. clear Hat Hoff Hlen. subst n.
      rewrite numChunks_spec in Hn2 |- *.
      change chunkedDataLen with 1408.
      destruct (decide _); [lia|].
      rewrite (Z.mod_eq (blen z) 1408) by lia. lia.
  - apply concat_payloads_all; [done|fold n; lia].
Qed.

(** C4.  A buffer whose chunk count exceeds 255: [writeChunked] returns
    the "msg too large" error and leaves the world as it was: no datagram
    handed to the connection, no read of the random source. *)
Theorem writeChunked_capacity_error (E : env) (z : list byte) (w : world) :
  numChunks z > 255 ->
  writeChunked E z w = (w, Err (ErrTooLarge (numChunks z))).
Proof. apply writeChunked_too_large. Qed.

(** C5.  Whatever the environment does, the datagram that [writeChunked]
    hands to the connection in position [k] is the 2-byte magic 0x1e 0x0f,
    the 8-byte message identifier drawn for this message (the same for
    every position), one byte holding the sequence index [k], one byte
    holding the total, and then the payload; it is at most [ChunkSize]
    bytes long. *)
Theorem chunk_datagram_layout (E : env) (z : list byte) (w : world)
    (k : nat) (d : list byte) :
  sent (writeChunked E z w).1 !! (length (sent w) + k)%nat = Some d ->
  ∃ chunk : list byte,
    d = [x1e; x0f] ++ msgId_of E w
          ++ [uint8_byte (Z.of_nat k)] ++ [uint8_byte (numChunks z)]
          ++ chunk
    ∧ length (msgId_of E w) = 8%nat
    ∧ byte_val (uint8_byte (Z.of_nat k)) = Z.of_nat k
    ∧ byte_val (uint8_byte (numChunks z)) = numChunks z
    ∧ Z.of_nat k < numChunks z
    ∧ blen d = chunkedHeaderLen + blen chunk
    ∧ blen d <= ChunkSize.
Proof.
  intros Hd.
  destruct (writeChunked_sent E z w) as (c & w' & r & Hw & Hc & Hs & _ & Hbig).
  rewrite Hw in Hd. cbn [fst] in Hd. rewrite Hs in Hd.
  rewrite lookup_app_r in Hd by lia.
  replace (length (sent w) + k - length (sent w))%nat with k in Hd by lia.
  assert (Hkc : (k < c)%nat).
  { apply lookup_lt_Some in Hd. by rewrite length_frames in Hd. }
  rewrite lookup_frames in Hd by done. injection Hd as <-.
  assert (Hn : numChunks z <= 255).
  { destruct (decide (numChunks z > 255)) as [Hb|]; [|lia].
    specialize (Hbig Hb). lia. }
  pose proof (length_fill8 (rr_bytes (urandom E (draws w)))) as Hid.
  fold (msgId_of E w) in Hid.
  exists (chunk_of z (Z.of_nat k)). rewrite Z.add_0_l.
  pose proof (blen_chunk_of z (Z.of_nat k)) as Hlen.
  unfold frame. rewrite blen_chunk_datagram by done.
  repeat split; try done.
  - apply byte_val_uint8. lia.
  - apply byte_val_uint8. pose proof (numChunks_pos z). lia.
  - lia.
  - unfold chunkedDataLen in Hlen. lia.
Qed.

Lemma numChunks_zeros (n : Z) :
  0 <= n ->
  numChunks (zeros n) = if decide (n <= 1420) then 1 else n / 1408 + 1.
Proof.
  intros Hn. rewrite numChunks_spec. unfold zeros, blen.
  rewrite length_replicate, Z2Nat.id by done. done.
Qed.

Lemma writeChunked_reassembles_witness :
  2 <= numChunks (zeros 3000) <= 255
  ∧ ∃ ds : list (list byte),
      writeChunked reliable (zeros 3000) world0
        = (World ([] ++ ds) 1 0, Ok tt)
      ∧ Z.of_nat (length ds) = 3
      ∧ concat (payload <$> ds) = zeros 3000.
Proof.
  assert (Hn : numChunks (zeros 3000) = 3)
    by (by rewrite numChunks_zeros by lia).
  split; [lia|].
  destruct (writeChunked_reassembles reliable (zeros 3000) world0)
    as (ds & Hw & Hlen & _ & _ & Hcat).
  - lia.
  - split; reflexivity.
  - intros h b. split; reflexivity.
  - exists ds. rewrite Hn in Hlen. auto.
Defined.

Lemma writeChunked_capacity_error_witness :
  numChunks (zeros 360000) > 255
  ∧ writeChunked reliable (zeros 360000) world0
    = (world0, Err (ErrTooLarge (numChunks (zeros 360000)))).
Proof.
  assert (Hn : numChunks (zeros 360000) = 256)
    by (by rewrite numChunks_zeros by lia).
  split; [lia|].
  apply (writeChunked_capacity_error reliable (zeros 360000) world0). lia.
Defined.

Lemma chunk_datagram_layout_witness :
  ∃ chunk : list byte,
    frame id_bytes 3 (zeros 3000) 1
    = [x1e; x0f] ++ id_bytes ++ [x01] ++ [x03] ++ chunk
    ∧ blen chunk = 1408.
Proof.
  destruct (chunk_datagram_layout reliable (zeros 3000) world0 1
              (frame id_bytes 3 (zeros 3000) 1))
    as (chunk & Hd & _ & _ & _ & _ & Hlen & _).
  - vm_compute. reflexivity.
  - exists chunk. split; [exact Hd|].
    assert (Hb : blen (frame id_bytes 3 (zeros 3000) 1) = 1420)
      by (vm_compute; reflexivity).
    rewrite Hb in Hlen. unfold chunkedHeaderLen in Hlen. lia.
Defined.

(** ** Record encoding: lemmas *)

Section CodecFacts.
Context {float64 : Type}.
Variable J : @json_lib float64.
Implicit Types (m : @Message float64) (e : gmap string (@value float64)).

Lemma join_members_app (a b : list (list byte)) :
  a ≠ [] -> b ≠ [] ->
  join_members (a ++ b) = join_members a ++ comma :: join_members b.
Proof.
  induction a as [|x a IH]; intros Ha Hb; [done|].
  destruct a as [|y a].
  - simpl. by destruct b.
  - change (join_members ((x :: y :: a) ++ b))
      with (x ++ comma :: join_members ((y :: a) ++ b)).
    rewrite IH by done.
    change (join_members (x :: y :: a))
      with (x ++ comma :: join_members (y :: a)).
    by rewrite <- app_assoc.
Qed.

(** [b[len(b)-1] = x] on a buffer that ends in some byte. *)
Lemma go_store_last (l : list byte) (x y : byte) :
  go_store (l ++ [x]) (blen (l ++ [x]) - 1) y = Some (l ++ [y]).
Proof.
  unfold go_store, blen. rewrite length_app. simpl.
  rewrite decide_True by lia. f_equal.
  replace (Z.to_nat (Z.of_nat (length l + 1) - 1)) with (length l + 0)%nat
    by lia.
  by rewrite insert_app_r.
Qed.

(** [b[1:len(b)]] on a buffer that starts with some byte. *)
Lemma go_slice_tail (x : byte) (l : list byte) :
  go_slice (x :: l) 1 (blen (x :: l)) = Some l.
Proof.
  unfold go_slice, blen. simpl length. rewrite decide_True by lia.
  f_equal. change (Z.to_nat 1) with 1%nat. simpl drop.
  apply take_ge. lia.
Qed.

(** The splice of two objects with members is the object with the
    members of both. *)
Lemma splice_objects (ms1 ms2 : list (list byte * list byte)) b' tl :
  ms1 ≠ [] -> ms2 ≠ [] ->
  go_store (render_object ms1) (blen (render_object ms1) - 1) comma
    = Some b' ->
  go_slice (render_object ms2) 1 (blen (render_object ms2)) = Some tl ->
  b' ++ tl = render_object (ms1 ++ ms2).
Proof.
  intros H1 H2. unfold render_object.
  rewrite (app_comm_cons _ [rbrace] lbrace), go_store_last, go_slice_tail.
  intros [= <-] [= <-]. rewrite fmap_app, join_members_app.
  - simpl. rewrite <- !app_assoc. done.
  - by destruct ms1.
  - by destruct ms2.
Qed.

Lemma sorted_entries_perm e : sorted_entries e ≡ₚ map_to_list e.
Proof. apply merge_sort_Permutation. Qed.

Lemma sorted_entries_nil e : sorted_entries e = [] <-> e = ∅.
Proof.
  rewrite <- map_to_list_empty_iff. split; intros H.
  - apply Permutation_nil_r. by rewrite <- H, sorted_entries_perm.
  - apply Permutation_nil_r. by rewrite sorted_entries_perm, H.
Qed.

Lemma map_len_0 (x : option (gmap string (@value float64))) :
  map_len x = 0 <-> entries x = ∅.
Proof. unfold map_len. rewrite <- map_size_empty_iff. lia. Qed.

(** What [MarshalJSON] returns, case by case: an error when the library
    refuses the timestamp or a value of the extension map, and otherwise
    one object, the fixed fields followed by the extension entries. *)
Lemma MarshalJSON_eq m :
  MarshalJSON J m
  = match enc_float J (TimeUnix m),
          mapM (encode_entry J) (sorted_entries (entries (Extra m))) with
    | Some ts, Some ems => Ok (render_object (fixed_members J m ts ++ ems))
    | _, _ => Err ErrMarshal
    end.
Proof.
  unfold MarshalJSON, Marshal_innerMessage, Marshal_map.
  destruct (enc_float J (TimeUnix m)) as [ts|]; simpl; [|done].
  destruct (decide (map_len (Extra m) = 0)) as [H0|H0].
  - apply map_len_0 in H0. apply sorted_entries_nil in H0 as ->.
    unfold fixed_members. simpl. done.
  - destruct (mapM _ _) as [ems|] eqn:Hems; simpl; [|done].
    assert (ems ≠ []) as Hne.
    { intros ->. apply length_mapM in Hems.
      destruct (sorted_entries _) eqn:Hs; [|done].
      apply sorted_entries_nil in Hs. by apply map_len_0 in Hs. }
    destruct (go_store _ _ _) as [b'|] eqn:Hb.
    2:{ unfold render_object in Hb.
        by rewrite (app_comm_cons _ [rbrace] lbrace), go_store_last in Hb. }
    destruct (go_slice _ _ _) as [tl|] eqn:Htl.
    2:{ unfold render_object in Htl. by rewrite go_slice_tail in Htl. }
    f_equal. by apply (splice_objects (fixed_members J m ts) ems).
Qed.

Lemma encode_entry_Some (kv : string * @value float64) y :
  encode_entry J kv = Some y ->
  ∃ b, enc_value J kv.2 = Some b ∧ y = (enc_string J kv.1, b).
Proof.
  unfold encode_entry. destruct (enc_value J kv.2) as [b|]; simpl; [|done].
  intros [= <-]. eauto.
Qed.

Lemma encoded_keys (l : list (string * @value float64)) ems :
  mapM (encode_entry J) l = Some ems ->
  ems.*1 = (fun kv => enc_string J kv.1) <$> l.
Proof.
  intros H. apply mapM_Some_1 in H.
  induction H as [|kv y l ems Hy _ IH]; [done|].
  apply encode_entry_Some in Hy as (b & _ & ->).
  rewrite !fmap_cons, IH. done.
Qed.

Lemma encoded_entry_elem (l : list (string * @value float64)) ems k v :
  mapM (encode_entry J) l = Some ems -> (k, v) ∈ l ->
  ∃ b, enc_value J v = Some b ∧ (enc_string J k, b) ∈ ems.
Proof.
  intros H Hin. apply mapM_Some_1 in H.
  apply list_elem_of_lookup in Hin as [i Hi].
  destruct (Forall2_lookup_l _ _ _ _ _ H Hi) as (y & Hy & Henc).
  apply encode_entry_Some in Henc as (b & Hb & ->).
  exists b. split; [done|]. by eapply list_elem_of_lookup_2.
Qed.

End CodecFacts.

(** ** Record encoding: the claims *)

(** C6.  [MarshalJSON] returns one flat object: the nine fixed fields
    followed by one top-level member per entry of the extension map, the
    key being the entry's own key as the library writes a string (nothing
    is put in front of it) and the value the entry's value; there is no
    member that holds the map as a whole.  It is an error only when the
    library refuses the timestamp or a value of the map.  With an empty
    (or nil) extension map the result is the encoding of the fixed fields
    alone. *)
Theorem MarshalJSON_flat_object {float64 : Type} (J : @json_lib float64)
    (m : @Message float64) :
  let ext := sorted_entries (entries (Extra m)) in
  MarshalJSON J m
  = match enc_float J (TimeUnix m), mapM (encode_entry J) ext with
    | Some ts, Some ems => Ok (render_object (fixed_members J m ts ++ ems))
    | _, _ => Err ErrMarshal
    end
  ∧ (forall ems, mapM (encode_entry J) ext = Some ems ->
       ems.*1 = (fun kv => enc_string J kv.1) <$> ext
       ∧ length ems = size (entries (Extra m))
       ∧ forall k v, entries (Extra m) !! k = Some v ->
           ∃ b, enc_value J v = Some b ∧ (enc_string J k, b) ∈ ems)
  ∧ (entries (Extra m) = ∅ ->
       MarshalJSON J m
       = match Marshal_innerMessage J m with
         | Some b => Ok b
         | None => Err ErrMarshal
         end).
Proof.
  intros ext. split; [apply MarshalJSON_eq|]. split.
  - intros ems Hems. split; [by apply encoded_keys|]. split.
    + apply length_mapM in Hems. rewrite <- Hems. unfold ext.
      rewrite sorted_entries_perm. apply length_map_to_list.
    + intros k v Hkv. eapply encoded_entry_elem; [done|].
      unfold ext. rewrite sorted_entries_perm.
      by apply elem_of_map_to_list.
  - intros He. rewrite MarshalJSON_eq. unfold Marshal_innerMessage.
    destruct (enc_float J (TimeUnix m)) as [ts|]; simpl; [|done].
    apply sorted_entries_nil in He. rewrite He.
    unfold fixed_members. simpl. done.
Qed.

(** ** Record decoding: lemmas *)

Section DecodeFacts.
Context {float64 : Type}.
Variable J : @json_lib float64.
Implicit Types (m : @Message float64) (v : @value float64)
  (order : list (string * @value float64)).

Ltac switch_cases v :=
  unfold decode_fixed;
  repeat (match goal with
          | |- context [if String.eqb ?a ?b then _ else _] =>
            destruct (String.eqb a b) eqn:?; [destruct v; reflexivity|]
          end).

Lemma decode_entry_not_err m k v : is_err (decode_entry J m k v) = false.
Proof.
  destruct k as [|c k]; [done|]. unfold decode_entry.
  destruct (Ascii.eqb c "_"); [done|]. 
  switch_cases v. reflexivity.
Qed.

Lemma decode_range_not_err order : forall m,
  is_err (decode_range J order m) = false.
Proof.
  induction order as [|[k v] order IH]; intros m; [done|]. simpl.
  pose proof (decode_entry_not_err m k v) as He.
  destruct (decode_entry J m k v); simpl in *; auto.
Qed.

Lemma decode_range_panics order k v : forall m,
  (k, v) ∈ order ->
  (forall m', is_panic (decode_entry J m' k v) = true) ->
  is_panic (decode_range J order m) = true.
Proof.
  induction order as [|[k' v'] order IH]; intros m Hin Hp.
  - by apply elem_of_nil in Hin.
  - simpl. apply elem_of_cons in Hin as [[= <- <-]|Hin].
    + specialize (Hp m). by destruct (decode_entry J m k v).
    + pose proof (decode_entry_not_err m k' v') as He.
      destruct (decode_entry J m k' v'); simpl in *; auto.
Qed.

Lemma decode_entry_empty_key m v :
  decode_entry J m "" v = Panic IndexOutOfRange.
Proof. reflexivity. Qed.

Lemma decode_entry_mistyped m k v :
  mistyped (k, v) -> decode_entry J m k v = Panic InterfaceConversion.
Proof.
  intros (t & Hin & Ht). simpl in *. unfold fixed_fields in Hin.
  repeat (apply elem_of_cons in Hin as [[= -> ->]|Hin];
          [destruct v; simpl in Ht; try discriminate Ht; reflexivity|]).
  by apply elem_of_nil in Hin.
Qed.

Lemma fixed_fields_elem (k : string) (t : bool) :
  (k, t) ∈ fixed_fields <-> In (k, t) fixed_fields.
Proof. apply list_elem_of_In. Qed.

Lemma decode_entry_panic_kind m k v p :
  decode_entry J m k v = Panic p ->
  (p = IndexOutOfRange ∧ k = ""%string)
  ∨ (p = InterfaceConversion ∧ mistyped (k, v)).
Proof.
  destruct k as [|c k]; [intros [= <-]; by left|]. unfold decode_entry.
  destruct (Ascii.eqb c "_"); [discriminate|]. intros Hp. right.
  unfold decode_fixed in Hp. unfold mistyped. cbn [fst snd].
  repeat (match type of Hp with
    | context [if String.eqb ?a ?b then _ else _] =>
      destruct (String.eqb a b) eqn:Heq;
      [ apply String.eqb_eq in Heq; rewrite Heq;
        destruct v; cbn in Hp; try discriminate Hp; injection Hp as <-;
        (split; [reflexivity|]);
        first [ exists true; split;
                  [apply fixed_fields_elem; cbn; tauto | reflexivity]
              | exists false; split;
                  [apply fixed_fields_elem; cbn; tauto | reflexivity] ]
      | clear Heq ]
    end).
  discriminate Hp.
Qed.

Lemma decode_range_panic_kind order p : forall m,
  decode_range J order m = Panic p ->
  ∃ k v, (k, v) ∈ order
    ∧ ((p = IndexOutOfRange ∧ k = ""%string)
       ∨ (p = InterfaceConversion ∧ mistyped (k, v))).
Proof.
  induction order as [|[k v] order IH]; intros m Hp; [discriminate|].
  simpl in Hp. destruct (decode_entry J m k v) as [m'|e|q] eqn:Hd;
    simpl in Hp.
  - destruct (IH _ Hp) as (k' & v' & Hin & Hk).
    exists k', v'. split; [by apply elem_of_cons; right|exact Hk].
  - discriminate.
  - injection Hp as ->. exists k, v.
    split; [apply elem_of_cons; by left|].
    by eapply decode_entry_panic_kind.
Qed.

Lemma decode_range_good order : forall m,
  Forall (good J) order ->
  decode_range J order m = Ok (foldl (step J) m order).
Proof.
  induction order as [|[k v] order IH]; intros m Hg; [reflexivity|].
  apply Forall_cons in Hg as [Hkv Hg]. simpl.
  unfold step at 2. destruct (Hkv m) as [m' Hm']. simpl in Hm'.
  simpl. rewrite Hm'. simpl. by apply IH.
Qed.


(** *** What one iteration does to each field *)

Ltac step_field :=
  let m := fresh "m" in let k := fresh "k" in let v := fresh "v" in
  let c := fresh "c" in let Hc := fresh "Hc" in let Heq := fresh "Heq" in
  unfold sets; intros m k v; unfold step; cbn [fst snd];
  destruct k as [|c k]; [reflexivity|]; unfold decode_entry;
  destruct (Ascii.eqb c "_") eqn:Hc;
  [ apply Ascii.eqb_eq in Hc; subst c; reflexivity
  | unfold decode_fixed;
    repeat (match goal with
      | |- context [if String.eqb ?a ?b then _ else _] =>
        destruct (String.eqb a b) eqn:Heq;
        [ apply String.eqb_eq in Heq; try rewrite Heq;
          destruct v; reflexivity
        | clear Heq ]
      end);
    reflexivity ].

Lemma sets_Version : sets J Version "version" read_string.
Proof. step_field. Qed.
Lemma sets_Host : sets J Host "host" read_string.
Proof. step_field. Qed.
Lemma sets_Short : sets J Short "short_message" read_string.
Proof. step_field. Qed.
Lemma sets_Full : sets J Full "full_message" read_string.
Proof. step_field. Qed.
Lemma sets_TimeUnix : sets J TimeUnix "timestamp" read_float.
Proof. step_field. Qed.
Lemma sets_Level : sets J Level "level" (read_int32 J).
Proof. step_field. Qed.
Lemma sets_Facility : sets J Facility "facility" read_string.
Proof. step_field. Qed.
Lemma sets_File : sets J File "file" read_string.
Proof. step_field. Qed.
Lemma sets_Line : sets J Line "line" (read_int J).
Proof. step_field. Qed.


(** A field is untouched by a run over entries without its key, and holds
    what its entry says after a run over entries with distinct keys. *)
Lemma foldl_step_absent {A} (get : @Message float64 -> A) name read :
  sets J get name read ->
  forall order m, name ∉ order.*1 ->
  get (foldl (step J) m order) = get m.
Proof.
  intros Hs. induction order as [|[k v] order IH]; intros m Hn; [done|].
  rewrite fmap_cons in Hn. apply not_elem_of_cons in Hn as [Hk Hn].
  cbn [foldl]. rewrite IH by exact Hn. rewrite Hs.
  destruct (String.eqb k name) eqn:Heq; [|reflexivity].
  apply String.eqb_eq in Heq. cbn in Hk. congruence.
Qed.

Lemma foldl_step_present {A} (get : @Message float64 -> A) name read :
  sets J get name read ->
  forall order m v a,
    NoDup order.*1 -> (name, v) ∈ order -> read v = Some a ->
    get (foldl (step J) m order) = a.
Proof.
  intros Hs. induction order as [|[k v'] order IH];
    intros m v a Hnd Hin Hr.
  - by apply elem_of_nil in Hin.
  - rewrite fmap_cons in Hnd. apply NoDup_cons in Hnd as [Hk Hnd].
    cbn [foldl]. apply elem_of_cons in Hin as [[= <- <-]|Hin].
    + rewrite (foldl_step_absent get name read Hs) by exact Hk.
      rewrite Hs. rewrite String.eqb_refl. by rewrite Hr.
    + by eapply IH.
Qed.

Lemma step_Extra m k v :
  entries (Extra (step J m (k, v)))
  = if starts_underscore k then <[k := v]> (entries (Extra m))
    else entries (Extra m).
Proof.
  unfold step; cbn [fst snd].
  destruct k as [|c k]; [reflexivity|]. unfold decode_entry.
  cbn [starts_underscore].
  destruct (Ascii.eqb c "_"); [reflexivity|]. unfold decode_fixed.
  repeat (match goal with
    | |- context [if String.eqb ?a ?b then _ else _] =>
      destruct (String.eqb a b); [destruct v; reflexivity|]
    end).
  reflexivity.
Qed.

Lemma foldl_step_Extra order : forall m k,
  NoDup order.*1 ->
  entries (Extra (foldl (step J) m order)) !! k
  = if starts_underscore k
    then match (list_to_map order : gmap string value) !! k with
         | Some v => Some v
         | None => entries (Extra m) !! k
         end
    else entries (Extra m) !! k.
Proof.
  induction order as [|[k0 v0] order IH]; intros m k Hnd.
  - cbn [foldl]. rewrite list_to_map_nil, lookup_empty.
    by destruct (starts_underscore k).
  - rewrite fmap_cons in Hnd. apply NoDup_cons in Hnd as [Hk0 Hnd].
    cbn [foldl]. rewrite IH by exact Hnd. rewrite step_Extra.
    rewrite list_to_map_cons.
    destruct (decide (k = k0)) as [->|Hne].
    + rewrite lookup_insert_eq.
      rewrite (not_elem_of_list_to_map_1 order k0) by exact Hk0.
      destruct (starts_underscore k0); [by rewrite lookup_insert_eq|done].
    + rewrite lookup_insert_ne by done.
      destruct (starts_underscore k0);
        [by rewrite lookup_insert_ne by done|done].
Qed.

(** *** The entries of an encoded message are taken by the loop *)

Lemma underscore_good k v : starts_underscore k = true -> good J (k, v).
Proof.
  intros Hk m. destruct k as [|c k]; [done|]. cbn in Hk |- *.
  rewrite Hk. eauto.
Qed.

Lemma NoDup_fixed_names (m : @Message float64) (fl fn : float64) :
  NoDup (fixed_entries m fl fn).*1.
Proof.
  change ((fixed_entries m fl fn).*1)
    with [ "version"; "host"; "short_message"; "full_message"; "timestamp";
           "level"; "facility"; "file"; "line" ]%string.
  apply (bool_decide_unpack _). vm_compute. exact I.
Qed.

Lemma lookup_fixed_object (m : @Message float64) fl fn k v :
  fixed_object m fl fn !! k = Some v <-> (k, v) ∈ fixed_entries m fl fn.
Proof.
  unfold fixed_object. symmetry.
  apply elem_of_list_to_map, NoDup_fixed_names.
Qed.

Lemma fixed_entry_good (m : @Message float64) fl fn k v :
  (k, v) ∈ fixed_entries m fl fn ->
  good J (k, v) ∧ starts_underscore k = false.
Proof.
  intros Hin. unfold fixed_entries in Hin.
  repeat (apply elem_of_cons in Hin as [[= -> ->]|Hin];
          [split; [intros m'; eexists; reflexivity|reflexivity]|]).
  by apply elem_of_nil in Hin.
Qed.

End DecodeFacts.

(** The round trip, from what the decoder makes of the encoder's
    output. *)
Lemma roundtrip_of_decoded_object {float64 : Type} (J : @json_lib float64)
    (m m0 : @Message float64) :
  (forall k, is_Some (entries (Extra m) !! k) -> starts_underscore k = true) ->
  decodes_to_object J m ->
  entries (Extra m0) = ∅ ->
  ∃ data,
    MarshalJSON J m = Ok data
    ∧ (∃ r, UnmarshalJSON J m0 data r)
    ∧ forall r, UnmarshalJSON J m0 data r ->
        ∃ m', r = Ok m'
          ∧ Version m' = Version m ∧ Host m' = Host m
          ∧ Short m' = Short m ∧ Full m' = Full m
          ∧ TimeUnix m' = TimeUnix m ∧ Level m' = Level m
          ∧ Facility m' = Facility m ∧ File m' = File m
          ∧ Line m' = Line m
          ∧ entries (Extra m') = entries (Extra m).
Proof.
  intros Hkeys (ts & ems & fl & fn & Hts & Hems & Hun & Hfl & Hfn) Hm0.
  set (obj := fixed_object m fl fn ∪ entries (Extra m)) in *.
  exists (render_object (fixed_members J m ts ++ ems)).
  split; [by rewrite MarshalJSON_eq, Hts, Hems|]. split.
  { exists (decode_range J (map_to_list obj) m0).
    by eapply Unmarshal_ranges. }
  intros r Hr. destruct Hr as [Hnone|i order Hi Hperm]; [congruence|].
  assert (i = obj) as -> by congruence.
  assert (Hnd : NoDup order.*1).
  { rewrite Hperm. apply NoDup_fst_map_to_list. }
  assert (Hobj : (list_to_map order : gmap string value) = obj).
  { rewrite (list_to_map_proper order (map_to_list obj)) by done.
    apply list_to_map_to_list. }
  assert (Hfixed : forall k v, (k, v) ∈ fixed_entries m fl fn ->
            (k, v) ∈ order).
  { intros k v Hin. rewrite Hperm. apply elem_of_map_to_list.
    apply lookup_union_Some_l. by apply lookup_fixed_object. }
  assert (Hgood : Forall (good J) order).
  { apply Forall_forall. intros [k v] Hin. rewrite Hperm in Hin.
    apply elem_of_map_to_list in Hin.
    apply lookup_union_Some_raw in Hin as [Hin|[_ Hin]].
    - apply lookup_fixed_object in Hin.
      by destruct (fixed_entry_good J m fl fn k v Hin).
    - apply underscore_good, Hkeys. by rewrite Hin. }
  rewrite (decode_range_good J order m0 Hgood).
  eexists. split; [reflexivity|].
  assert (Hin : forall k v, In (k, v) (fixed_entries m fl fn) ->
            (k, v) ∈ order).
  { intros k v H. by apply Hfixed, list_elem_of_In. }
  repeat split.
  - apply (foldl_step_present J Version _ _ (sets_Version J) order m0
             (JStr (Version m))); [done|apply Hin; cbn; tauto|done].
  - apply (foldl_step_present J Host _ _ (sets_Host J) order m0
             (JStr (Host m))); [done|apply Hin; cbn; tauto|done].
  - apply (foldl_step_present J Short _ _ (sets_Short J) order m0
             (JStr (Short m))); [done|apply Hin; cbn; tauto|done].
  - apply (foldl_step_present J Full _ _ (sets_Full J) order m0
             (JStr (Full m))); [done|apply Hin; cbn; tauto|done].
  - apply (foldl_step_present J TimeUnix _ _ (sets_TimeUnix J) order m0
             (JNum (TimeUnix m))); [done|apply Hin; cbn; tauto|done].
  - apply (foldl_step_present J Level _ _ (sets_Level J) order m0
             (JNum fl)); [done|apply Hin; cbn; tauto|by cbn; rewrite Hfl].
  - apply (foldl_step_present J Facility _ _ (sets_Facility J) order m0
             (JStr (Facility m))); [done|apply Hin; cbn; tauto|done].
  - apply (foldl_step_present J File _ _ (sets_File J) order m0
             (JStr (File m))); [done|apply Hin; cbn; tauto|done].
  - apply (foldl_step_present J Line _ _ (sets_Line J) order m0
             (JNum fn)); [done|apply Hin; cbn; tauto|by cbn; rewrite Hfn].
  - apply map_eq. intros k.
    rewrite (foldl_step_Extra J order m0 k Hnd), Hobj, Hm0, lookup_empty.
    destruct (starts_underscore k) eqn:Hk.
    + unfold obj. rewrite lookup_union_r.
      * by destruct (entries (Extra m) !! k).
      * destruct (fixed_object m fl fn !! k) as [v|] eqn:Hv; [|done].
        apply lookup_fixed_object in Hv.
        destruct (fixed_entry_good J m fl fn k v Hv). congruence.
    + destruct (entries (Extra m) !! k) as [v|] eqn:Hv; [|done].
      rewrite (Hkeys k) in Hk; [done|by rewrite Hv].
Qed.

Section Faithful.
Context {float64 : Type}.
Variable J : @json_lib float64.
Variable reads : list byte -> @value float64 -> Prop.

Lemma encoded_entries_read (E : gmap string (@value float64)) l :
  (forall k v, E !! k = Some v ->
     reads (enc_string J k) (JStr k)
     ∧ ∃ b, enc_value J v = Some b ∧ reads b v) ->
  Forall (fun kv => E !! kv.1 = Some kv.2) l ->
  ∃ ems, mapM (encode_entry J) l = Some ems
    ∧ Forall2 (fun mb kv => reads mb.1 (JStr kv.1) ∧ reads mb.2 kv.2) ems l.
Proof.
  intros Hext. induction 1 as [|[k v] l Hkv _ (ems & Hems & Hall)].
  - exists []. split; [reflexivity|constructor].
  - destruct (Hext k v Hkv) as (Hk & b & Hb & Hv).
    exists ((enc_string J k, b) :: ems). split.
    + apply mapM_Some_2. constructor; [|by apply mapM_Some_1].
      unfold encode_entry. cbn [fst snd]. by rewrite Hb.
    + constructor; [split; assumption|assumption].
Qed.

Lemma faithful_decodes (m : @Message float64) :
  reads_objects J reads ->
  (forall k, is_Some (entries (Extra m) !! k) -> starts_underscore k = true) ->
  json_faithful J reads m ->
  decodes_to_object J m.
Proof.
  intros [Hobj Hnames] Hkeys
    (Hstr & (ts & Hts & Rts) & (fl & Rfl & Hfl) & (fn & Rfn & Hfn) & Hext).
  set (E := entries (Extra m)) in *.
  destruct (encoded_entries_read E (sorted_entries E) Hext)
    as (ems & Hems & Hall).
  { apply Forall_forall. intros [k v] Hin.
    rewrite sorted_entries_perm in Hin. by apply elem_of_map_to_list. }
  exists ts, ems, fl, fn. repeat split; try assumption.
  rewrite (Hobj (fixed_members J m ts ++ ems)
             (fixed_entries m fl fn ++ sorted_entries E)).
  - f_equal. rewrite list_to_map_app. unfold fixed_object. f_equal.
    rewrite (list_to_map_proper (sorted_entries E) (map_to_list E)).
    + apply list_to_map_to_list.
    + rewrite sorted_entries_perm. apply NoDup_fst_map_to_list.
    + apply sorted_entries_perm.
  - apply Forall2_app; [|exact Hall].
    unfold fixed_fields in Hnames. cbn in Hnames.
    repeat (apply Forall_cons in Hnames as [? Hnames]).
    repeat (apply Forall_cons in Hstr as [? Hstr]).
    unfold fixed_members, fixed_entries.
    repeat (constructor; [split; assumption|]). constructor.
  - rewrite fmap_app. apply NoDup_app. split; [apply NoDup_fixed_names|].
    split.
    + intros k Hk1 Hk2.
      apply list_elem_of_fmap in Hk1 as ([k1 v1] & -> & Hin1).
      apply list_elem_of_fmap in Hk2 as ([k2 v2] & Heq & Hin2).
      cbn in Heq. subst k2.
      destruct (fixed_entry_good J m fl fn k1 v1 Hin1) as [_ Hf].
      rewrite sorted_entries_perm in Hin2.
      apply elem_of_map_to_list in Hin2.
      rewrite (Hkeys k1) in Hf; [discriminate|by rewrite Hin2].
    + rewrite sorted_entries_perm. apply NoDup_fst_map_to_list.
Qed.

End Faithful.

(** ** The reference codec meets the decoder's contract *)

Lemma is_delim_cases (c : byte) :
  RefJSON.is_delim c = true -> c = colon ∨ c = comma ∨ c = rbrace.
Proof.
  unfold RefJSON.is_delim. intros H.
  apply orb_prop in H as [H|H]; [apply orb_prop in H as [H|H]|];
    apply Byte.byte_dec_bl in H; auto.
Qed.

(** Inserting the members one after the other gives the map of the
    members when no key comes twice. *)
Lemma foldl_insert_list_to_map {V} (kvs : list (string * V)) :
  forall acc : gmap string V,
  NoDup kvs.*1 ->
  foldl (fun a kv => <[kv.1 := kv.2]> a) acc kvs = list_to_map kvs ∪ acc.
Proof.
  induction kvs as [|[k v] kvs IH]; intros acc Hnd.
  - cbn. by rewrite (left_id_L ∅ (∪)).
  - rewrite fmap_cons in Hnd. apply NoDup_cons in Hnd as [Hk Hnd].
    cbn [foldl fst snd]. rewrite IH by exact Hnd.
    rewrite list_to_map_cons. rewrite <- insert_union_l.
    rewrite insert_union_r; [done|].
    by apply not_elem_of_list_to_map_1.
Qed.

Lemma render_members_cons (mb : list byte * list byte) ms :
  join_members (render_member <$> (mb :: ms)) ++ [rbrace]
  = mb.1 ++ colon ::
      (mb.2 ++ match ms with
               | [] => [rbrace]
               | _ => comma :: join_members (render_member <$> ms) ++ [rbrace]
               end).
Proof.
  destruct ms as [|mb' ms].
  - cbn. unfold render_member. by rewrite <- app_assoc.
  - change (join_members (render_member <$> mb :: mb' :: ms))
      with (render_member mb ++ comma
              :: join_members (render_member <$> mb' :: ms)).
    unfold render_member at 1. rewrite <- !app_assoc. reflexivity.
Qed.

Lemma length_render_members (ms : list (list byte * list byte)) :
  (length ms <= length (join_members (render_member <$> ms)))%nat.
Proof.
  induction ms as [|mb ms IH]; [done|].
  destruct ms as [|mb' ms].
  - cbn. unfold render_member. rewrite length_app. cbn. lia.
  - change (join_members (render_member <$> mb :: mb' :: ms))
      with (render_member mb ++ comma
              :: join_members (render_member <$> mb' :: ms)).
    rewrite length_app. cbn [length] in *. lia.
Qed.

Lemma parse_members_rendered ms kvs :
  Forall2 (fun mb kv => RefJSON.reads mb.1 (JStr kv.1)
                        ∧ RefJSON.reads mb.2 kv.2) ms kvs ->
  forall fuel acc,
  ms ≠ [] -> (length ms <= fuel)%nat ->
  RefJSON.parse_members fuel
    (join_members (render_member <$> ms) ++ [rbrace]) acc
  = Some (foldl (fun a kv => <[kv.1 := kv.2]> a) acc kvs).
Proof.
  induction 1 as [|mb kv ms kvs [Hk Hv] Hall IH]; intros fuel acc Hne Hfuel;
    [done|].
  destruct fuel as [|fuel]; [cbn in Hfuel; lia|].
  rewrite render_members_cons. cbn [RefJSON.parse_members].
  rewrite (Hk colon _ eq_refl).
  change (Byte.eqb colon colon) with true. cbn iota.
  destruct ms as [|mb' ms].
  - apply Forall2_nil_inv_l in Hall as ->.
    rewrite (Hv rbrace [] eq_refl). reflexivity.
  - rewrite (Hv comma _ eq_refl).
    change (Byte.eqb comma comma) with true. cbn iota.
    apply IH; [done|cbn in *; lia].
Qed.

Lemma RefJSON_reads_objects : reads_objects RefJSON.lib RefJSON.reads.
Proof.
  split.
  - intros ms kvs Hall Hnd.
    change (Unmarshal RefJSON.lib) with RefJSON.Unmarshal.
    unfold render_object, RefJSON.Unmarshal.
    change (Byte.eqb lbrace lbrace) with true. cbn iota.
    destruct ms as [|mb ms].
    + apply Forall2_nil_inv_l in Hall as ->. reflexivity.
    + rewrite decide_False.
      2:{ intros Heq. apply (f_equal length) in Heq.
          pose proof (length_render_members (mb :: ms)) as Hl.
          rewrite length_app in Heq. cbn in Heq, Hl. lia. }
      rewrite (parse_members_rendered (mb :: ms) kvs Hall); [|done|].
      * rewrite foldl_insert_list_to_map by exact Hnd.
        by rewrite (right_id_L ∅ (∪)).
      * pose proof (length_render_members (mb :: ms)) as Hl.
        rewrite length_app. lia.
  - unfold fixed_fields. cbn.
    repeat (constructor; [intros c r _; reflexivity|]). constructor.
Qed.

(** A known fixed-field key with a value of an unexpected type makes
    every run of the decoder panic. *)
Lemma mistyped_field_panics {float64 : Type} (J : @json_lib float64)
    (m : @Message float64) data (i : gmap string (@value float64)) k v :
  Unmarshal J data = Some i ->
  i !! k = Some v ->
  mistyped (k, v) ->
  forall r, UnmarshalJSON J m data r -> is_panic r = true.
Proof.
  intros Hi Hkv Hm r Hr.
  destruct Hr as [Hnone|i' order Hi' Hperm]; [congruence|].
  assert (i' = i) as -> by congruence.
  apply (decode_range_panics J order k v).
  - rewrite Hperm. by apply elem_of_map_to_list.
  - intros m'. by rewrite (decode_entry_mistyped J m' k v Hm).
Qed.

(** ** Record decoding: the claims *)

(** C7.  Given a decoder that reads back the objects the encoder writes:
    a message whose extension keys all start with an underscore and whose
    values are JSON-faithful, encoded by [MarshalJSON] and decoded by
    [UnmarshalJSON] into a message that has no extension entries.
    Encoding succeeds, decoding has an outcome, and in whatever order the
    entries are visited the outcome is a message with the same nine fixed
    fields and the same extension mapping (the empty one included). *)
Theorem decode_encode_roundtrip {float64 : Type} (J : @json_lib float64)
    (reads : list byte -> @value float64 -> Prop)
    (m m0 : @Message float64) :
  reads_objects J reads ->
  (forall k, is_Some (entries (Extra m) !! k) -> starts_underscore k = true) ->
  json_faithful J reads m ->
  entries (Extra m0) = ∅ ->
  ∃ data,
    MarshalJSON J m = Ok data
    ∧ (∃ r, UnmarshalJSON J m0 data r)
    ∧ forall r, UnmarshalJSON J m0 data r ->
        ∃ m', r = Ok m'
          ∧ Version m' = Version m ∧ Host m' = Host m
          ∧ Short m' = Short m ∧ Full m' = Full m
          ∧ TimeUnix m' = TimeUnix m ∧ Level m' = Level m
          ∧ Facility m' = Facility m ∧ File m' = File m
          ∧ Line m' = Line m
          ∧ entries (Extra m') = entries (Extra m).
Proof.
  intros Hlib Hkeys Hfaith Hm0.
  apply roundtrip_of_decoded_object; [exact Hkeys| |exact Hm0].
  by apply (faithful_decodes J reads).
Qed.

(** C8 (the decoder does not do this).  The object with the one member
    "version": 1 is well formed, and [UnmarshalJSON] neither returns an
    error nor skips the field: the assertion [v.(string)] panics. *)
Theorem UnmarshalJSON_version_number_panics :
  let data := render_object [(quote "version", RefJSON.decimal 1)] in
  RefJSON.Unmarshal data = Some {[ "version"%string := JNum 1 ]}
  ∧ forall (m : @Message Z) r,
      UnmarshalJSON RefJSON.lib m data r -> r = Panic InterfaceConversion.
Proof.
  intros data.
  assert (Hd : RefJSON.Unmarshal data = Some {[ "version"%string := JNum 1 ]})
    by (vm_compute; reflexivity).
  split; [exact Hd|]. intros m r Hr.
  destruct Hr as [Hnone|i order Hi Hperm];
    [change (Unmarshal RefJSON.lib data) with (RefJSON.Unmarshal data)
       in Hnone; congruence|].
  change (Unmarshal RefJSON.lib data) with (RefJSON.Unmarshal data) in Hi.
  assert (i = {[ "version"%string := JNum 1 ]}) as -> by congruence.
  rewrite map_to_list_singleton in Hperm.
  apply Permutation_singleton_r in Hperm as ->. reflexivity.
Qed.

(** C10 as stated fails: the object with the members "": null and
    "version": 1 holds the empty key, and the run that visits "version"
    first ends with the panic of the type assertion, not with the
    out-of-range panic. *)
Lemma empty_key_other_panic :
  let data := render_object [ (quote "", list_byte_of_string "null");
                              (quote "version", RefJSON.decimal 1) ] in
  ∃ i, RefJSON.Unmarshal data = Some i
    ∧ is_Some (i !! ""%string)
    ∧ UnmarshalJSON RefJSON.lib zero_msg data (Panic InterfaceConversion).
Proof.
  intros data.
  exists (<[ "version"%string := JNum 1 ]> {[ ""%string := JNull ]}).
  assert (Hd : RefJSON.Unmarshal data
               = Some (<[ "version"%string := JNum 1 ]>
                         {[ ""%string := JNull ]}))
    by (vm_compute; reflexivity).
  split; [exact Hd|]. split; [by rewrite lookup_insert_ne|].
  change (Panic InterfaceConversion)
    with (decode_range RefJSON.lib
            [("version"%string, JNum 1); (""%string, JNull)] zero_msg).
  eapply Unmarshal_ranges; [exact Hd|].
  rewrite map_to_list_insert by done.
  by rewrite map_to_list_singleton.
Qed.

(** C10, amended.  When the decoded object holds the empty key, every run
    of [UnmarshalJSON] ends in a run-time panic, never in an error: the
    out-of-range panic of [k[0]], or the panic of a type assertion when
    the object also holds a known fixed-field key with a value of an
    unexpected type; and the run that visits the empty key first ends in
    the out-of-range panic. *)
Theorem empty_key_panics {float64 : Type} (J : @json_lib float64)
    (m : @Message float64) data (i : gmap string (@value float64)) :
  Unmarshal J data = Some i ->
  is_Some (i !! ""%string) ->
  (forall r, UnmarshalJSON J m data r ->
     r = Panic IndexOutOfRange
     ∨ (r = Panic InterfaceConversion
        ∧ ∃ k v, i !! k = Some v ∧ mistyped (k, v)))
  ∧ UnmarshalJSON J m data (Panic IndexOutOfRange).
Proof.
  intros Hi [v0 Hv0]. split.
  - intros r Hr. destruct Hr as [Hnone|i' order Hi' Hperm]; [congruence|].
    assert (i' = i) as -> by congruence.
    assert (Hp : is_panic (decode_range J order m) = true).
    { apply (decode_range_panics J order "" v0).
      - rewrite Hperm. by apply elem_of_map_to_list.
      - reflexivity. }
    destruct (decode_range J order m) as [?|?|p] eqn:Hd; try discriminate.
    apply decode_range_panic_kind in Hd as (k & v & Hin & Hk).
    destruct Hk as [[-> _]|[-> Hm]]; [by left|right].
    split; [done|]. exists k, v. split; [|done].
    apply elem_of_map_to_list. by rewrite <- Hperm.
  - change (Panic IndexOutOfRange)
      with (decode_range J ((""%string, v0) :: map_to_list (delete ""%string i)) m).
    eapply Unmarshal_ranges; [exact Hi|].
    rewrite <- map_to_list_insert by apply lookup_delete_eq.
    by rewrite insert_delete_id.
Qed.

(** ** Record codec: the claims on the reference library *)

Lemma MarshalJSON_flat_object_witness :
  MarshalJSON RefJSON.lib example_msg
  = Ok (render_object
          (fixed_members RefJSON.lib example_msg (RefJSON.decimal 17)
           ++ [(quote "_user_id", RefJSON.decimal 42)]))
  ∧ MarshalJSON RefJSON.lib zero_msg
    = Ok (render_object
            (fixed_members RefJSON.lib zero_msg (RefJSON.decimal 0))).
Proof.
  split.
  - rewrite (proj1 (MarshalJSON_flat_object RefJSON.lib example_msg)).
    vm_compute. reflexivity.
  - rewrite (proj2 (proj2 (MarshalJSON_flat_object RefJSON.lib zero_msg)))
      by reflexivity.
    vm_compute. reflexivity.
Defined.

Lemma decode_encode_roundtrip_witness :
  ∃ data,
    MarshalJSON RefJSON.lib example_msg = Ok data
    ∧ forall r, UnmarshalJSON RefJSON.lib zero_msg data r ->
        ∃ m', r = Ok m'
          ∧ Version m' = "1.1"%string ∧ Level m' = 6 ∧ Line m' = 0
          ∧ entries (Extra m') = {[ "_user_id"%string := JNum 42 ]}.
Proof.
  destruct (decode_encode_roundtrip RefJSON.lib RefJSON.reads
              example_msg zero_msg)
    as (data & Hm & _ & Hall).
  - exact RefJSON_reads_objects.
  - intros k [v Hk]. change (entries (Extra example_msg))
      with ({[ "_user_id"%string := JNum 42 ]} : gmap string (@value Z)) in Hk.
    apply lookup_singleton_Some in Hk as [<- _]. reflexivity.
  - split; [|split; [|split; [|split]]].
    + repeat (constructor; [intros c r _; reflexivity|]). constructor.
    + exists (RefJSON.decimal 17). split; [reflexivity|].
      intros c r Hc.
      destruct (is_delim_cases c Hc) as [-> | [-> | ->]]; reflexivity.
    + exists 6. split; [|reflexivity]. intros c r Hc.
      destruct (is_delim_cases c Hc) as [-> | [-> | ->]]; reflexivity.
    + exists 0. split; [|reflexivity]. intros c r Hc.
      destruct (is_delim_cases c Hc) as [-> | [-> | ->]]; reflexivity.
    + intros k v Hk. change (entries (Extra example_msg))
        with ({[ "_user_id"%string := JNum 42 ]} : gmap string (@value Z))
        in Hk.
      apply lookup_singleton_Some in Hk as [Hk1 Hk2]. subst k v.
      split; [intros c r _; reflexivity|].
      exists (RefJSON.decimal 42). split; [reflexivity|]. intros c r Hc.
      destruct (is_delim_cases c Hc) as [-> | [-> | ->]]; reflexivity.
  - reflexivity.
  - exists data. split; [exact Hm|]. intros r Hr.
    destruct (Hall r Hr)
      as (m' & -> & Hv & _ & _ & _ & _ & Hl & _ & _ & Hln & He).
    exists m'. repeat split; assumption.
Defined.

Lemma empty_key_panics_witness :
  let data := render_object [(quote "", list_byte_of_string "null")] in
  UnmarshalJSON RefJSON.lib zero_msg data (Panic IndexOutOfRange).
Proof.
  intros data.
  apply (empty_key_panics RefJSON.lib zero_msg data {[ ""%string := JNull ]}).
  - vm_compute. reflexivity.
  - by rewrite lookup_singleton_eq.
Defined.

(** ** Sending: lemmas *)

Section TransportFacts.
Context {float64 : Type}.
Variable J : @json_lib float64.
Variable F : flate_lib.
Variable E : env.

Lemma send_unchunked z w :
  numChunks z = 1 ->
  send E z w
  = (World (sent w ++ [z]) (draws w) (built w),
     single_write_result E (sent w) z).
Proof.
  intros Hn. unfold send, conn_Write, single_write_result.
  rewrite decide_False by lia.
  by destruct (udp E (sent w) z) as [n [e|]]; [|destruct (decide _)].
Qed.

Lemma send_chunked z w :
  numChunks z ≠ 1 -> send E z w = writeChunked E z w.
Proof.
  intros Hn. pose proof (numChunks_pos z). unfold send.
  by rewrite decide_True by lia.
Qed.

Lemma WriteMessage_prepared m u w u2 w2 z :
  prepare J F m u w = (u2, w2, Ok z) ->
  WriteMessage J F E m u w = (u2, (send E z w2).1, (send E z w2).2).
Proof.
  intros Hp. unfold WriteMessage. rewrite Hp.
  by destruct (send E z w2).
Qed.

(** The single write is good exactly when the unchunked branch ends
    normally. *)
Lemma single_write_refused h z :
  ¬ accepted E h z -> is_err (single_write_result E h z) = true.
Proof.
  unfold accepted, single_write_result.
  destruct (udp E h z) as [n [e|]]; cbn [fst snd]; [done|].
  intros Hn. destruct (decide (n ≠ blen z)); [done|].
  exfalso. apply Hn. split; [done|]. by apply dec_stable.
Qed.

(** [WriteMessage] writes neither the settings nor the two fields that
    record the settings of the compressor in [zw]. *)
Lemma obtain_fields u w u' w' e :
  obtain F u w = Ok (u', w', e) ->
  CompressionType u' = CompressionType u
  ∧ CompressionLevel u' = CompressionLevel u
  ∧ zwCompressionType u' = zwCompressionType u
  ∧ zwCompressionLevel u' = zwCompressionLevel u.
Proof.
  unfold obtain. intros H.
  repeat (match type of H with
          | context [decide ?P] => destruct (decide P)
          | context [zw u] => destruct (zw u)
          | context [NewWriterLevel ?a ?b ?c] =>
            destruct (NewWriterLevel a b c)
          end);
    try discriminate; injection H as <- _ _; done.
Qed.

Lemma prepare_fields m u w u' w' r :
  prepare J F m u w = (u', w', r) ->
  CompressionType u' = CompressionType u
  ∧ CompressionLevel u' = CompressionLevel u
  ∧ zwCompressionType u' = zwCompressionType u
  ∧ zwCompressionLevel u' = zwCompressionLevel u.
Proof.
  unfold prepare. destruct (json_Marshal J m) as [b|e|p];
    [|by intros [= <- _ _]..].
  set (u1 := if decide _ then set_zw None u else u).
  assert (H1 : CompressionType u1 = CompressionType u
               ∧ CompressionLevel u1 = CompressionLevel u
               ∧ zwCompressionType u1 = zwCompressionType u
               ∧ zwCompressionLevel u1 = zwCompressionLevel u).
  { unfold u1. by destruct (decide _). }
  destruct (obtain F u1 w) as [[[u2 w2] e]|e|p] eqn:Ho;
    [|by intros [= <- _ _]..].
  apply obtain_fields in Ho.
  destruct e; intros [= <- _ _]; intuition congruence.
Qed.

End TransportFacts.

(** ** Sending: the claims *)

(** C2.  [numChunks] is 1 for a buffer of at most [ChunkSize] = 1420
    bytes and [len / chunkedDataLen + 1], with [chunkedDataLen] = 1408,
    for a longer one.  When [WriteMessage] has compressed the record to
    [z]: if [numChunks z] is 1 it hands [z] itself, with no header, to the
    connection as one datagram, and otherwise its outcome is that of
    [writeChunked] on [z]. *)
Theorem WriteMessage_dispatch {float64 : Type} (J : @json_lib float64)
    (F : flate_lib) (E : env) (m : @Message float64) (u : UDPWriter)
    (w : world) (u2 : UDPWriter) (w2 : world) (z : list byte) :
  prepare J F m u w = (u2, w2, Ok z) ->
  (forall b, numChunks b = if decide (blen b <= ChunkSize) then 1
                           else blen b / chunkedDataLen + 1)
  ∧ ChunkSize = 1420 ∧ chunkedDataLen = 1408
  ∧ (numChunks z = 1 ->
       WriteMessage J F E m u w
       = (u2, World (sent w2 ++ [z]) (draws w2) (built w2),
          single_write_result E (sent w2) z))
  ∧ (numChunks z ≠ 1 ->
       WriteMessage J F E m u w
       = (u2, (writeChunked E z w2).1, (writeChunked E z w2).2)).
Proof.
  intros Hp. repeat split.
  - intros Hn. rewrite (WriteMessage_prepared J F E m u w u2 w2 z Hp).
    by rewrite send_unchunked.
  - intros Hn. rewrite (WriteMessage_prepared J F E m u w u2 w2 z Hp).
    by rewrite send_chunked.
Qed.

(** C9.  When [WriteMessage] has compressed the record to [z], and the
    write of the datagram in position [j] of the send (a chunk, or the
    buffer itself when it is sent unchunked) is the first that is not
    good, that is, reports an error or a count other than the length of
    the datagram: [WriteMessage] returns an error, and the connection was
    handed the datagrams up to position [j] and none after it. *)
Theorem short_write_is_error {float64 : Type} (J : @json_lib float64)
    (F : flate_lib) (E : env) (m : @Message float64) (u : UDPWriter)
    (w : world) (u2 : UDPWriter) (w2 : world) (z : list byte)
    (j : nat) (d : list byte) :
  prepare J F m u w = (u2, w2, Ok z) ->
  numChunks z <= 255 ->
  (1 < numChunks z -> rand_ok E w2) ->
  datagrams E z w2 !! j = Some d ->
  all_accepted E (sent w2) (take j (datagrams E z w2)) ->
  ¬ accepted E (sent w2 ++ take j (datagrams E z w2)) d ->
  ∃ w3 e,
    WriteMessage J F E m u w = (u2, w3, Err e)
    ∧ sent w3 = sent w2 ++ take (S j) (datagrams E z w2).
Proof.
  intros Hp Hn Hrand Hd Hall Hrej.
  rewrite (WriteMessage_prepared J F E m u w u2 w2 z Hp).
  unfold datagrams in *.
  destruct (decide (numChunks z > 1)) as [Hc|Hc].
  - assert (Hj : (j < Z.to_nat (numChunks z))%nat).
    { apply lookup_lt_Some in Hd. by rewrite length_frames in Hd. }
    rewrite lookup_frames in Hd by done. injection Hd as <-.
    rewrite take_frames in * by lia. rewrite Z.add_0_l in Hrej.
    rewrite send_chunked by lia.
    rewrite (writeChunked_refused E z w2 j); [|lia|apply Hrand; lia|lia|done..].
    eexists _, _. split; [reflexivity|]. done.
  - assert (Hn1 : numChunks z = 1) by (pose proof (numChunks_pos z); lia).
    destruct j as [|j]; [|by destruct j]. injection Hd as <-.
    simpl in Hrej. rewrite app_nil_r in Hrej.
    rewrite send_unchunked by done. cbn [fst snd].
    apply single_write_refused in Hrej.
    destruct (single_write_result E (sent w2) z) as [?|e|?]; try done.
    by eexists _, _.
Qed.

Lemma WriteMessage_dispatch_witness :
  WriteMessage RefJSON.lib stored reliable example_msg plain_writer world0
  = (set_zw (Some (BufferedWriter 0)) plain_writer,
     World [example_z] 0 1, Ok tt)
  ∧ WriteMessage RefJSON.lib stored reliable big_msg plain_writer world0
    = (set_zw (Some (BufferedWriter 0)) plain_writer,
       (writeChunked reliable big_z (World [] 0 1)).1, Ok tt).
Proof.
  split.
  - destruct (WriteMessage_dispatch RefJSON.lib stored reliable example_msg
                plain_writer world0
                (set_zw (Some (BufferedWriter 0)) plain_writer)
                (World [] 0 1) example_z)
      as (_ & _ & _ & H1 & _); [vm_compute; reflexivity|].
    etrans; [apply H1; vm_compute; reflexivity|].
    vm_compute. reflexivity.
  - destruct (WriteMessage_dispatch RefJSON.lib stored reliable big_msg
                plain_writer world0
                (set_zw (Some (BufferedWriter 0)) plain_writer)
                (World [] 0 1) big_z)
      as (_ & _ & _ & _ & H2); [vm_compute; reflexivity|].
    etrans; [apply H2; vm_compute; discriminate|].
    vm_compute. reflexivity.
Defined.

Lemma short_write_is_error_witness :
  ∃ w3 e,
    WriteMessage RefJSON.lib stored (short_at 1) big_msg plain_writer world0
    = (set_zw (Some (BufferedWriter 0)) plain_writer, w3, Err e)
    ∧ length (sent w3) = 2%nat.
Proof.
  destruct (short_write_is_error RefJSON.lib stored (short_at 1) big_msg
              plain_writer world0
              (set_zw (Some (BufferedWriter 0)) plain_writer)
              (World [] 0 1) big_z 1
              (frame id_bytes 3 big_z 1))
    as (w3 & e & Hw & Hs).
  - vm_compute. reflexivity.
  - vm_compute. discriminate.
  - intros _. split; reflexivity.
  - vm_compute. reflexivity.
  - vm_compute. repeat split.
  - vm_compute. intros [_ H]. discriminate H.
  - exists w3, e. split; [exact Hw|]. rewrite Hs.
    vm_compute. reflexivity.
Defined.

(** ** The compressor cache *)

(** When the recorded settings differ from the configured ones, a call
    that gets as far as compressing has built a new compressor. *)
Lemma prepare_rebuilds {float64 : Type} (J : @json_lib float64)
    (F : flate_lib) (m : @Message float64) (u : UDPWriter) (w : world)
    (u2 : UDPWriter) (w2 : world) (z : list byte) :
  prepare J F m u w = (u2, w2, Ok z) ->
  zwCompressionType u ≠ CompressionType u
  ∨ zwCompressionLevel u ≠ CompressionLevel u ->
  built w2 = S (built w)
  ∧ (zw u2 = Some (GzipWriter (CompressionLevel u) (built w))
     ∨ zw u2 = Some (ZlibWriter (CompressionLevel u) (built w))
     ∨ zw u2 = Some (BufferedWriter (built w))).
Proof.
  unfold prepare. intros Hp Hne.
  destruct (json_Marshal J m) as [b|e|p]; try discriminate.
  rewrite decide_True in Hp by done. unfold obtain in Hp. cbn in Hp.
  repeat (match type of Hp with
          | context [decide ?P] => destruct (decide P)
          | context [NewWriterLevel ?a ?b ?c] =>
            destruct (NewWriterLevel a b c)
          end; try discriminate);
    injection Hp as <- <- _; cbn; auto.
Qed.

(** C3 (the writer does not do this).  On the writer that [newUDPWriter]
    returns, two calls of [WriteMessage] in a row with the settings left
    alone: the second call does not reuse the compressor of the first, it
    builds another (serial numbers 0 and 1).  And on a writer whose first
    call ran with zlib at level 5 and whose settings are then changed to
    gzip at level 0, the second call keeps the zlib compressor. *)
Theorem compressor_cache_broken :
  (let u0 := newUDPWriter "host" "gelf" in
   ∃ u1 w1 u2 w2,
     WriteMessage RefJSON.lib stored reliable example_msg u0 world0
       = (u1, w1, Ok tt)
     ∧ WriteMessage RefJSON.lib stored reliable example_msg u1 w1
       = (u2, w2, Ok tt)
     ∧ CompressionType u1 = CompressionType u0
     ∧ CompressionLevel u1 = CompressionLevel u0
     ∧ zw u1 = Some (GzipWriter 1 0)
     ∧ zw u2 = Some (GzipWriter 1 1)
     ∧ built w2 = 2%nat)
  ∧ (let v0 := set_Compression CompressZlib 5 (newUDPWriter "host" "gelf") in
     ∃ v1 w1 v2 w2,
       WriteMessage RefJSON.lib stored reliable example_msg v0 world0
         = (v1, w1, Ok tt)
       ∧ zw v1 = Some (ZlibWriter 5 0)
       ∧ WriteMessage RefJSON.lib stored reliable example_msg
           (set_Compression CompressGzip 0 v1) w1
         = (v2, w2, Ok tt)
       ∧ zw v2 = Some (ZlibWriter 5 0)
       ∧ built w2 = 1%nat).
Proof.
  split.
  - eexists _, _, _, _. split; [vm_compute; reflexivity|].
    split; [vm_compute; reflexivity|]. repeat split.
  - eexists _, _, _, _. split; [vm_compute; reflexivity|].
    split; [reflexivity|]. split; [vm_compute; reflexivity|]. split; reflexivity.
Qed.

(** ** Further properties of the chunked send *)

(** With the identifier drawn and every write good, [writeChunked] hands
    the whole chunk sequence to the connection; what it returns depends on
    the bytes the loop leaves over. *)
Lemma writeChunked_all_accepted E z w :
  numChunks z <= 255 -> rand_ok E w ->
  all_accepted E (sent w)
    (frames (msgId_of E w) (numChunks z) z 0 (Z.to_nat (numChunks z))) ->
  writeChunked E z w
  = (World (sent w ++ frames (msgId_of E w) (numChunks z) z 0
                        (Z.to_nat (numChunks z)))
           (S (draws w)) (built w),
     if decide (bytesLeft_after z 0 (Z.to_nat (numChunks z)) (blen z) ≠ 0)
     then Err (ErrBytesLeft
                 (bytesLeft_after z 0 (Z.to_nat (numChunks z)) (blen z)))
     else Ok tt).
Proof.
  intros Hn [He Hr] Hall. unfold writeChunked, rand_ReadFull.
  rewrite decide_False by lia. cbn zeta.
  rewrite decide_False by (intros [?|?]; done).
  rewrite (chunk_loop_accepted E _ _ z);
    [| apply loop_inv_start | cbn; lia | done].
  cbn [sent draws built]. by destruct (decide _).
Qed.

(** The bytes left over by a complete loop: none, except for a buffer of
    1409 to 1420 bytes, which needs one chunk by [numChunks] and does not
    fit in it. *)
Lemma bytesLeft_after_complete z :
  bytesLeft_after z 0 (Z.to_nat (numChunks z)) (blen z)
  = if decide (chunkedDataLen < blen z ∧ blen z <= ChunkSize)
    then blen z - chunkedDataLen else 0.
Proof.
  pose proof (numChunks_pos z) as Hpos. pose proof (blen_nonneg z) as Hz.
  unfold bytesLeft_after.
  destruct (Z.to_nat (numChunks z)) as [|k] eqn:Hk; [lia|].
  rewrite <- Hk, Z2Nat.id by lia. clear Hk k.
  destruct (decide (1 < numChunks z)) as [H1|H1].
  - pose proof (numChunks_cover z H1) as Hc.
    rewrite numChunks_spec in H1.
    change chunkedDataLen with 1408 in *. change ChunkSize with 1420 in *.
    destruct (decide (blen z <= 1420)); [lia|].
    rewrite decide_False by lia. lia.
  - assert (Hn : numChunks z = 1) by lia. rewrite Hn.
    rewrite numChunks_spec in Hn.
    change chunkedDataLen with 1408 in *. change ChunkSize with 1420 in *.
    destruct (decide (blen z <= 1420)) as [Hle|Hgt].
    + destruct (decide (1408 < blen z ∧ blen z <= 1420)); lia.
    + assert (0 <= blen z / 1408) by (apply Z.div_pos; lia).
      assert (blen z / 1408 = 0) as Hd by lia.
      apply Z.div_small_iff in Hd; lia.
Qed.

(** The world after [writeChunked], whatever the environment does. *)
Lemma writeChunked_world E z w :
  ∃ (c : nat) r,
    writeChunked E z w
    = (World (sent w ++ frames (msgId_of E w) (numChunks z) z 0 c)
             (if decide (numChunks z > 255) then draws w else S (draws w))
             (built w), r)
    ∧ Z.of_nat c <= numChunks z
    ∧ is_panic r = false
    ∧ (r = Ok tt -> c = Z.to_nat (numChunks z)).
Proof.
  pose proof (numChunks_pos z) as Hpos.
  destruct (decide (numChunks z > 255)) as [Hbig|Hsmall].
  { exists 0%nat. eexists. rewrite writeChunked_too_large by done.
    simpl. rewrite app_nil_r. destruct w. repeat split; (lia || discriminate). }
  destruct (decide (rand_ok E w)) as [Hr|Hr].
  2:{ exists 0%nat. eexists.
      rewrite writeChunked_rand_fails by (done || lia).
      simpl. rewrite app_nil_r. repeat split; (lia || discriminate). }
  destruct (accepted_or_refused E
              (frames (msgId_of E w) (numChunks z) z 0
                 (Z.to_nat (numChunks z))) (sent w))
    as [Hall|(j & f & Hj & Hall & Hrej)].
  - exists (Z.to_nat (numChunks z)). eexists.
    rewrite writeChunked_all_accepted by (done || lia).
    split; [reflexivity|]. split; [lia|].
    split; by destruct (decide _).
  - assert (Hjn : (j < Z.to_nat (numChunks z))%nat).
    { apply lookup_lt_Some in Hj. by rewrite length_frames in Hj. }
    rewrite lookup_frames in Hj by done. injection Hj as <-.
    rewrite take_frames in Hall, Hrej by lia. rewrite Z.add_0_l in Hrej.
    exists (S j). eexists.
    rewrite (writeChunked_refused E z w j) by (done || lia).
    split; [reflexivity|]. split; [lia|]. split; [done|discriminate].
Qed.

(** X1.  In every environment [writeChunked] returns without a panic; the
    datagrams it has handed to the connection are the first chunks of the
    sequence, their payloads laid end to end are a leading part of the
    buffer, no compressor is built, and the random source is read once,
    or not at all when the buffer needs more than 255 chunks. *)
Theorem writeChunked_sends_prefix (E : env) (z : list byte) (w : world) :
  ∃ c : nat,
    Z.of_nat c <= numChunks z
    ∧ is_panic (writeChunked E z w).2 = false
    ∧ sent (writeChunked E z w).1
      = sent w ++ frames (msgId_of E w) (numChunks z) z 0 c
    ∧ concat (payload <$> frames (msgId_of E w) (numChunks z) z 0 c)
      = take (c * Z.to_nat chunkedDataLen) z
    ∧ built (writeChunked E z w).1 = built w
    ∧ draws (writeChunked E z w).1
      = (if decide (numChunks z > 255) then draws w else S (draws w)).
Proof.
  destruct (writeChunked_world E z w) as (c & r & Hw & Hc & Hp & _).
  exists c. rewrite Hw. cbn [fst snd sent draws built].
  repeat split; try done.
  rewrite concat_payloads by (apply length_fill8 || lia).
  simpl. by rewrite drop_0.
Qed.

(** X2.  [writeChunked] returns nil exactly when the buffer needs at most
    255 chunks, the random source fills the identifier, every datagram of
    the chunk sequence is written in full, and the buffer is not one of
    1409 to 1420 bytes. *)
Theorem writeChunked_ok_iff (E : env) (z : list byte) (w : world) :
  (writeChunked E z w).2 = Ok tt
  <-> numChunks z <= 255
      ∧ rand_ok E w
      ∧ all_accepted E (sent w)
          (frames (msgId_of E w) (numChunks z) z 0 (Z.to_nat (numChunks z)))
      ∧ ¬ (chunkedDataLen < blen z ∧ blen z <= ChunkSize).
Proof.
  split.
  - intros Hok.
    destruct (decide (numChunks z > 255)) as [Hbig|Hsmall].
    { rewrite writeChunked_too_large in Hok by done. discriminate. }
    destruct (decide (rand_ok E w)) as [Hr|Hr].
    2:{ rewrite writeChunked_rand_fails in Hok by (done || lia).
        discriminate. }
    destruct (accepted_or_refused E
                (frames (msgId_of E w) (numChunks z) z 0
                   (Z.to_nat (numChunks z))) (sent w))
      as [Hall|(j & f & Hj & Hall & Hrej)].
    + rewrite writeChunked_all_accepted in Hok by (done || lia).
      cbn [snd] in Hok. rewrite bytesLeft_after_complete in Hok.
      split; [lia|]. split; [done|]. split; [done|].
      intros Hrange. rewrite (decide_True _ _ Hrange) in Hok.
      destruct (decide (blen z - chunkedDataLen ≠ 0)); [discriminate|lia].
    + assert (Hjn : (j < Z.to_nat (numChunks z))%nat).
      { apply lookup_lt_Some in Hj. by rewrite length_frames in Hj. }
      rewrite lookup_frames in Hj by done. injection Hj as <-.
      rewrite take_frames in Hall, Hrej by lia. rewrite Z.add_0_l in Hrej.
      rewrite (writeChunked_refused E z w j) in Hok by (done || lia).
      discriminate.
  - intros (Hn & Hr & Hall & Hrange).
    rewrite writeChunked_all_accepted by done. cbn [snd].
    rewrite bytesLeft_after_complete, (decide_False _ _ Hrange).
    by rewrite decide_False by (intros ?; done).
Qed.

(** X3.  The largest buffer [writeChunked] takes.  [numChunks] stays within
    the 255 that fit the total field exactly for buffers shorter than
    255 * 1408 = 359040 bytes. *)
Theorem numChunks_capacity (b : list byte) :
  numChunks b <= 255 <-> blen b < 255 * chunkedDataLen.
Proof.
  rewrite numChunks_spec. change chunkedDataLen with 1408.
  pose proof (blen_nonneg b) as Hb.
  destruct (decide (blen b <= 1420)) as [Hle|Hgt]; [lia|].
  pose proof (Z.div_mod (blen b) 1408 ltac:(lia)) as Hdm.
  pose proof (Z.mod_pos_bound (blen b) 1408 ltac:(lia)) as Hm.
  lia.
Qed.

Lemma all_accepted_always E :
  (forall h b, accepted E h b) -> forall fs h, all_accepted E h fs.
Proof. intros Ha fs. induction fs; intros h; simpl; auto. Qed.

(** X4.  A buffer longer than 1420 bytes whose length is a multiple of
    1408.  [numChunks] counts one chunk more than the buffer fills, and
    the last datagram of a successful send is the 12-byte header alone,
    with an empty payload. *)
Theorem writeChunked_empty_last_chunk (E : env) (z : list byte) (w : world) :
  ChunkSize < blen z ->
  blen z mod chunkedDataLen = 0 ->
  numChunks z <= 255 ->
  rand_ok E w ->
  (forall h b, accepted E h b) ->
  ∃ ds : list (list byte),
    writeChunked E z w
      = (World (sent w ++ ds) (S (draws w)) (built w), Ok tt)
    ∧ numChunks z = blen z / chunkedDataLen + 1
    ∧ blen z = (numChunks z - 1) * chunkedDataLen
    ∧ ds !! Z.to_nat (numChunks z - 1)
      = Some (magicChunked ++ msgId_of E w
                ++ [uint8_byte (numChunks z - 1)]
                ++ [uint8_byte (numChunks z)]).
Proof.
  intros Hlen Hmod Hn Hrand Hacc.
  assert (Hnc : numChunks z = blen z / chunkedDataLen + 1).
  { rewrite numChunks_spec. change ChunkSize with 1420 in Hlen.
    by rewrite decide_False by lia. }
  assert (Hz : blen z = (numChunks z - 1) * chunkedDataLen).
  { rewrite Hnc. change chunkedDataLen with 1408 in *.
    pose proof (Z.div_mod (blen z) 1408 ltac:(lia)). lia. }
  assert (Hn2 : 1 < numChunks z).
  { change chunkedDataLen with 1408 in *. change ChunkSize with 1420 in *.
    lia. }
  exists (frames (msgId_of E w) (numChunks z) z 0 (Z.to_nat (numChunks z))).
  split; [|split; [done|split; [done|]]].
  - apply writeChunked_accepted;
      [exact Hn2 | exact Hn | exact Hrand | by apply all_accepted_always].
  - rewrite lookup_frames by lia. f_equal.
    rewrite Z.add_0_l, Z2Nat.id by lia. unfold frame, chunk_datagram.
    do 4 f_equal. unfold chunk_of.
    rewrite drop_ge; [by rewrite take_nil|].
    unfold blen in Hz. lia.
Qed.

(** X5.  [writeChunked] called on a buffer that [numChunks] puts in one
    chunk, with the identifier drawn and the write good.  Up to 1408
    bytes the buffer is sent whole in one chunk datagram; from 1409 to
    1420 bytes the first 1408 bytes are sent and the call returns the
    error that counts the bytes left. *)
Theorem writeChunked_single_chunk (E : env) (z : list byte) (w : world) :
  blen z <= ChunkSize ->
  rand_ok E w ->
  (forall h b, accepted E h b) ->
  writeChunked E z w
  = (World (sent w ++ [chunk_datagram (msgId_of E w) 0 1
                         (take (Z.to_nat chunkedDataLen) z)])
           (S (draws w)) (built w),
     if decide (chunkedDataLen < blen z)
     then Err (ErrBytesLeft (blen z - chunkedDataLen))
     else Ok tt).
Proof.
  intros Hlen Hrand Hacc.
  assert (Hn : numChunks z = 1).
  { rewrite numChunks_spec. change ChunkSize with 1420 in Hlen.
    by rewrite decide_True by lia. }
  rewrite writeChunked_all_accepted;
    [|lia|done|by apply all_accepted_always].
  rewrite bytesLeft_after_complete, Hn.
  change (Z.to_nat 1) with 1%nat. cbn [frames]. unfold frame, chunk_of.
  change (Z.to_nat (0 * chunkedDataLen)) with 0%nat. rewrite drop_0.
  f_equal.
  change chunkedDataLen with 1408 in *.
  destruct (decide (1408 < blen z)) as [Hgt|Hle].
  - destruct (decide (1408 < blen z ∧ blen z <= ChunkSize)); [|lia].
    destruct (decide (blen z - 1408 ≠ 0)); [done|lia].
  - destruct (decide (1408 < blen z ∧ blen z <= ChunkSize)); [lia|].
    destruct (decide (0 ≠ 0)); [lia|done].
Qed.

(** ** Further properties of WriteMessage *)

Section WriteMessageFacts.
Context {float64 : Type}.
Variable J : @json_lib float64.
Variable F : flate_lib.
Variable E : env.
Implicit Types (m : @Message float64) (u : UDPWriter) (w : world).

(** The splice in [MarshalJSON] stays inside its buffers. *)
Lemma MarshalJSON_no_panic m : is_panic (MarshalJSON J m) = false.
Proof.
  rewrite MarshalJSON_eq.
  destruct (enc_float J (TimeUnix m)); [|reflexivity].
  by destruct (mapM _ _).
Qed.

Lemma json_Marshal_no_panic m : is_panic (json_Marshal J m) = false.
Proof.
  unfold json_Marshal. pose proof (MarshalJSON_no_panic m) as Hp.
  destruct (MarshalJSON J m) as [b|e|p]; [|done..].
  cbn. by destruct (compact J b).
Qed.

Ltac obtain_cases H :=
  unfold obtain in H;
  repeat (match type of H with
          | context [decide ?P] => destruct (decide P)
          | context [match zw ?u with _ => _ end] => destruct (zw u) eqn:?
          | context [NewWriterLevel ?a ?b ?c] =>
            destruct (NewWriterLevel a b c)
          end);
  try discriminate H.

(** What the switch on the compression type does to the writer and the
    world: it sets at most [zw], builds at most one compressor, and sends
    nothing. *)
Lemma obtain_keeps u w u' w' e :
  obtain F u w = Ok (u', w', e) ->
  hostname u' = hostname u ∧ WriterFacility u' = WriterFacility u
  ∧ CompressionType u' = CompressionType u
  ∧ CompressionLevel u' = CompressionLevel u
  ∧ zwCompressionType u' = zwCompressionType u
  ∧ zwCompressionLevel u' = zwCompressionLevel u
  ∧ sent w' = sent w ∧ draws w' = draws w
  ∧ (built w' = built w ∨ built w' = S (built w)).
Proof.
  intros H. obtain_cases H; injection H as <- <- _; cbn; auto 10.
Qed.

Lemma obtain_not_err u w e : obtain F u w ≠ Err e.
Proof. intros H. obtain_cases H. Qed.

Lemma obtain_panic u w p :
  obtain F u w = Panic p ->
  p = UnknownCompression (CompressionType u)
  ∧ CompressionType u ≠ CompressGzip ∧ CompressionType u ≠ CompressZlib
  ∧ CompressionType u ≠ NoCompress.
Proof. intros H. obtain_cases H. injection H as <-. auto. Qed.

(** The handle after the switch, when no constructor failed: the one
    that was there, or a compressor just built. *)
Lemma obtain_handle u w u' w' :
  obtain F u w = Ok (u', w', None) ->
  (zw u' = zw u ∧ zw u ≠ None)
  ∨ (zw u' = Some (GzipWriter (CompressionLevel u) (built w))
     ∨ zw u' = Some (ZlibWriter (CompressionLevel u) (built w))
     ∨ zw u' = Some (BufferedWriter (built w))).
Proof.
  intros H. obtain_cases H; injection H as <- _; cbn; auto.
  all: left; split; congruence.
Qed.

(** The first part of [WriteMessage] sends nothing and changes of the
    writer only [zw]. *)
Lemma prepare_keeps m u w u2 w2 r :
  prepare J F m u w = (u2, w2, r) ->
  hostname u2 = hostname u ∧ WriterFacility u2 = WriterFacility u
  ∧ CompressionType u2 = CompressionType u
  ∧ CompressionLevel u2 = CompressionLevel u
  ∧ zwCompressionType u2 = zwCompressionType u
  ∧ zwCompressionLevel u2 = zwCompressionLevel u
  ∧ sent w2 = sent w ∧ draws w2 = draws w
  ∧ (built w2 = built w ∨ built w2 = S (built w)).
Proof.
  unfold prepare. destruct (json_Marshal J m) as [b|e|p];
    [|intros [= <- <- _]; auto 10..].
  set (u1 := if decide _ then set_zw None u else u).
  assert (H1 : hostname u1 = hostname u ∧ WriterFacility u1 = WriterFacility u
               ∧ CompressionType u1 = CompressionType u
               ∧ CompressionLevel u1 = CompressionLevel u
               ∧ zwCompressionType u1 = zwCompressionType u
               ∧ zwCompressionLevel u1 = zwCompressionLevel u).
  { unfold u1. by destruct (decide _). }
  destruct H1 as (? & ? & ? & ? & ? & ?).
  destruct (obtain F u1 w) as [[[u' w'] e]|e|p] eqn:Ho;
    [|intros [= <- <- _]; auto 10..].
  apply obtain_keeps in Ho as (? & ? & ? & ? & ? & ? & ? & ? & ?).
  destruct e; intros [= <- <- _]; repeat split; congruence || auto.
Qed.

(** The second part never panics, hands the connection only datagrams of
    at most [ChunkSize] bytes, and has handed it all the datagrams of the
    send when it ends normally. *)
Lemma send_world z w :
  ∃ ds dr r,
    send E z w = (World (sent w ++ ds) dr (built w), r)
    ∧ (dr = draws w ∨ dr = S (draws w))
    ∧ Forall (fun d => blen d <= ChunkSize) ds
    ∧ is_panic r = false
    ∧ (r = Ok tt -> ds = datagrams E z w).
Proof.
  unfold send, datagrams.
  destruct (decide (numChunks z > 1)) as [Hc|Hc].
  - destruct (writeChunked_world E z w) as (c & r & Hw & Hcn & Hp & Hok).
    eexists _, _, r. split; [exact Hw|].
    split; [destruct (decide _); auto|]. split; [|split; [done|]].
    + clear Hw Hok Hcn. generalize 0 at 1.
      induction c as [|c IH]; intros i; [constructor|].
      cbn [frames]. constructor; [|apply IH].
      unfold frame. rewrite blen_chunk_datagram by apply length_fill8.
      pose proof (blen_chunk_of z i).
      change chunkedDataLen with 1408 in *. change ChunkSize with 1420.
      change chunkedHeaderLen with 12. lia.
    + intros Hr. by rewrite (Hok Hr).
  - unfold conn_Write. exists [z]. eexists.
    assert (Hz : blen z <= ChunkSize).
    { pose proof (numChunks_pos z). rewrite numChunks_spec in Hc.
      pose proof (blen_nonneg z). change ChunkSize with 1420.
      destruct (decide (blen z <= 1420)) as [?|Hgt]; [done|].
      assert (0 <= blen z / 1408) by (apply Z.div_pos; lia).
      assert (blen z / 1408 = 0) as Hd by lia.
      apply Z.div_small_iff in Hd; lia. }
    destruct (udp E (sent w) z) as [n [e|]].
    + eexists. split; [reflexivity|]. repeat split; auto; discriminate.
    + destruct (decide (n ≠ blen z)); eexists; (split; [reflexivity|]);
        repeat split; auto; try discriminate.
Qed.

End WriteMessageFacts.

(** X6.  Whatever the message, the settings and the environment, every
    datagram [WriteMessage] hands to the connection is at most
    [ChunkSize] = 1420 bytes long. *)
Theorem WriteMessage_datagram_size {float64 : Type} (J : @json_lib float64)
    (F : flate_lib) (E : env) (m : @Message float64) (u : UDPWriter)
    (w : world) :
  ∃ ds : list (list byte),
    sent (WriteMessage J F E m u w).1.2 = sent w ++ ds
    ∧ Forall (fun d => blen d <= ChunkSize) ds.
Proof.
  unfold WriteMessage.
  destruct (prepare J F m u w) as [[u2 w2] r] eqn:Hp.
  apply prepare_keeps in Hp as (_ & _ & _ & _ & _ & _ & Hs & _ & _).
  destruct r as [z|e|p]; try (exists []; cbn; rewrite app_nil_r; by split).
  destruct (send_world E z w2) as (ds & dr & r & Hsend & _ & Hall & _ & _).
  rewrite Hsend. cbn. exists ds. by rewrite Hs.
Qed.

(** X7.  [WriteMessage] changes of the writer only the compressor in [zw]:
    the host name, the facility, the two settings and the two fields that
    record the settings of the compressor are as they were, whatever the
    outcome. *)
Theorem WriteMessage_keeps_settings {float64 : Type} (J : @json_lib float64)
    (F : flate_lib) (E : env) (m : @Message float64) (u : UDPWriter)
    (w : world) :
  let u' := (WriteMessage J F E m u w).1.1 in
  hostname u' = hostname u ∧ WriterFacility u' = WriterFacility u
  ∧ CompressionType u' = CompressionType u
  ∧ CompressionLevel u' = CompressionLevel u
  ∧ zwCompressionType u' = zwCompressionType u
  ∧ zwCompressionLevel u' = zwCompressionLevel u.
Proof.
  unfold WriteMessage.
  destruct (prepare J F m u w) as [[u2 w2] r] eqn:Hp.
  apply prepare_keeps in Hp as (? & ? & ? & ? & ? & ? & _).
  destruct r as [z|e|p]; [destruct (send E z w2)|..]; cbn; auto 10.
Qed.

(** X8.  When [WriteMessage] returns nil, the connection was handed all the
    datagrams of the send, in order and nothing else: the compressed
    buffer itself, or its [numChunks] chunks, whose payloads laid end to
    end are the buffer. *)
Theorem WriteMessage_ok_sends_all {float64 : Type} (J : @json_lib float64)
    (F : flate_lib) (E : env) (m : @Message float64) (u u' : UDPWriter)
    (w w' : world) :
  WriteMessage J F E m u w = (u', w', Ok tt) ->
  ∃ z : list byte,
    (prepare J F m u w).2 = Ok z
    ∧ sent w' = sent w ++ datagrams E z w
    ∧ Z.of_nat (length (datagrams E z w)) = numChunks z
    ∧ (if decide (numChunks z > 1)
       then concat (payload <$> datagrams E z w) = z
       else datagrams E z w = [z]).
Proof.
  unfold WriteMessage.
  destruct (prepare J F m u w) as [[u2 w2] r] eqn:Hp.
  apply prepare_keeps in Hp as (_ & _ & _ & _ & _ & _ & Hs & Hd & _).
  destruct r as [z|e|p]; [|discriminate..].
  destruct (send_world E z w2) as (ds & dr & r & Hsend & _ & _ & _ & Hok).
  rewrite Hsend. intros [= <- <- ->]. specialize (Hok eq_refl).
  exists z. split; [done|]. cbn [sent].
  assert (Hdg : datagrams E z w2 = datagrams E z w).
  { unfold datagrams, msgId_of. by rewrite Hd. }
  rewrite Hok, Hs, Hdg. split; [done|].
  pose proof (numChunks_pos z) as Hpos. unfold datagrams.
  destruct (decide (numChunks z > 1)) as [Hc|Hc].
  - split; [rewrite length_frames; lia|].
    apply concat_payloads_all; [apply length_fill8|lia].
  - split; [cbn; lia|done].
Qed.

(** X9.  When the record cannot be encoded or compressed, [WriteMessage]
    does not return nil, and nothing is handed to the connection or read
    from the random source. *)
Theorem WriteMessage_fails_before_send {float64 : Type}
    (J : @json_lib float64) (F : flate_lib) (E : env)
    (m : @Message float64) (u : UDPWriter) (w : world) :
  (forall z, (prepare J F m u w).2 ≠ Ok z) ->
  (WriteMessage J F E m u w).2 ≠ Ok tt
  ∧ sent (WriteMessage J F E m u w).1.2 = sent w
  ∧ draws (WriteMessage J F E m u w).1.2 = draws w.
Proof.
  unfold WriteMessage. intros Hno.
  destruct (prepare J F m u w) as [[u2 w2] r] eqn:Hp.
  apply prepare_keeps in Hp as (_ & _ & _ & _ & _ & _ & Hs & Hd & _).
  destruct r as [z|e|p]; [by destruct (Hno z)|..]; cbn; by repeat split.
Qed.

Lemma prepare_NoCompress {float64 : Type} (J : @json_lib float64)
    (F : flate_lib) (m : @Message float64) (u : UDPWriter) (w : world)
    (mBytes : list byte) :
  json_Marshal J m = Ok mBytes ->
  CompressionType u = NoCompress ->
  prepare J F m u w
  = (set_zw (Some (BufferedWriter (built w))) u, next_id w, Ok mBytes).
Proof.
  intros Hm Ht. unfold prepare. rewrite Hm.
  destruct (decide (zwCompressionType u ≠ CompressionType u
                    ∨ zwCompressionLevel u ≠ CompressionLevel u));
    unfold obtain; cbn [CompressionType set_zw]; rewrite Ht;
    reflexivity.
Qed.

Lemma single_write_accepted (E : env) h z :
  accepted E h z -> single_write_result E h z = Ok tt.
Proof.
  unfold accepted, single_write_result.
  destruct (udp E h z) as [n [e|]]; cbn; intros [He Hn]; [done|].
  by rewrite decide_False by (intros ?; done).
Qed.

(** X10.  With [NoCompress] the record is not transformed: the buffer that
    goes to the send is the JSON encoding itself.  A new [bufferedWriter]
    takes the place of whatever [zw] held, at every call. *)
Theorem WriteMessage_NoCompress {float64 : Type} (J : @json_lib float64)
    (F : flate_lib) (E : env) (m : @Message float64) (u : UDPWriter)
    (w : world) (mBytes : list byte) :
  json_Marshal J m = Ok mBytes ->
  CompressionType u = NoCompress ->
  WriteMessage J F E m u w
  = (set_zw (Some (BufferedWriter (built w))) u,
     (send E mBytes (next_id w)).1, (send E mBytes (next_id w)).2).
Proof.
  intros Hm Ht. apply WriteMessage_prepared. by apply prepare_NoCompress.
Qed.

(** X11.  A compression type other than the three constants: once the
    record is encoded, [WriteMessage] panics with the type in the
    message, and nothing is handed to the connection. *)
Theorem WriteMessage_unknown_compression {float64 : Type}
    (J : @json_lib float64) (F : flate_lib) (E : env)
    (m : @Message float64) (u : UDPWriter) (w : world) (mBytes : list byte) :
  json_Marshal J m = Ok mBytes ->
  CompressionType u ≠ CompressGzip ->
  CompressionType u ≠ CompressZlib ->
  CompressionType u ≠ NoCompress ->
  (WriteMessage J F E m u w).2
    = Panic (UnknownCompression (CompressionType u))
  ∧ (WriteMessage J F E m u w).1.2 = w.
Proof.
  intros Hm H0 H1 H2. unfold WriteMessage, prepare. rewrite Hm.
  destruct (decide (zwCompressionType u ≠ CompressionType u
                    ∨ zwCompressionLevel u ≠ CompressionLevel u));
    unfold obtain; cbn [CompressionType set_zw];
    rewrite !decide_False by done; done.
Qed.

Lemma run_zw_panic (F : flate_lib) (h : option handle) b q :
  run_zw F h b = Panic q ->
  q = NilDereference
  ∧ (h = None ∨ h = Some NilGzipWriter ∨ h = Some NilZlibWriter).
Proof.
  destruct h as [[l i|l i|i| |]|]; cbn;
    repeat (match goal with
            | |- context [deflate ?a ?b ?c ?d] => destruct (deflate a b c d)
            end); try discriminate; intros [= <-]; auto.
Qed.

(** A panic of [WriteMessage] is a panic of its first part: the send
    itself never panics. *)
Lemma WriteMessage_panic_prepare {float64 : Type} (J : @json_lib float64)
    (F : flate_lib) (E : env) (m : @Message float64) (u : UDPWriter)
    (w : world) (p : panic) :
  (WriteMessage J F E m u w).2 = Panic p ->
  (prepare J F m u w).2 = Panic p.
Proof.
  unfold WriteMessage.
  destruct (prepare J F m u w) as [[u2 w2] [z|e|q]].
  - destruct (send_world E z w2) as (? & ? & r & -> & _ & _ & Hp & _).
    cbn. intros ->. discriminate.
  - cbn. discriminate.
  - cbn. by intros [= <-].
Qed.

(** X12.  The panics of [WriteMessage].  It panics only on a compression
    type other than the three constants, or when [zw] holds the nil
    pointer left by a constructor that failed and the settings now equal
    the recorded ones, so that [zw] is kept and [Reset] is called through
    it.  In particular the splice of [MarshalJSON] and the slicing of
    [writeChunked] never go out of bounds. *)
Theorem WriteMessage_panics_only {float64 : Type} (J : @json_lib float64)
    (F : flate_lib) (E : env) (m : @Message float64) (u : UDPWriter)
    (w : world) (p : panic) :
  (WriteMessage J F E m u w).2 = Panic p ->
  (p = UnknownCompression (CompressionType u)
   ∧ CompressionType u ≠ CompressGzip ∧ CompressionType u ≠ CompressZlib
   ∧ CompressionType u ≠ NoCompress)
  ∨ (p = NilDereference
     ∧ (zw u = Some NilGzipWriter ∨ zw u = Some NilZlibWriter)
     ∧ zwCompressionType u = CompressionType u
     ∧ zwCompressionLevel u = CompressionLevel u).
Proof.
  intros Hp. apply WriteMessage_panic_prepare in Hp. revert Hp.
  unfold prepare.
  pose proof (json_Marshal_no_panic J m) as Hj.
  destruct (json_Marshal J m) as [b|e|q]; [|discriminate..]. clear Hj.
  destruct (decide (zwCompressionType u ≠ CompressionType u
                    ∨ zwCompressionLevel u ≠ CompressionLevel u))
    as [Hne|Heq].
  - destruct (obtain F (set_zw None u) w) as [[[u2 w2] e]|e|q] eqn:Ho.
    + destruct e as [e|]; [discriminate|]. cbn. intros Hr.
      apply run_zw_panic in Hr as [_ Hr].
      apply obtain_handle in Ho as [[_ Hz]|Hz]; [done|].
      cbn in Hz. destruct Hz as [Hz|[Hz|Hz]]; rewrite Hz in Hr;
        destruct Hr as [?|[?|?]]; discriminate.
    + by destruct (obtain_not_err F _ _ _ Ho).
    + cbn. intros [= <-]. left. by apply obtain_panic in Ho.
  - assert (Ht : zwCompressionType u = CompressionType u).
    { destruct (decide (zwCompressionType u = CompressionType u)); tauto. }
    assert (Hl : zwCompressionLevel u = CompressionLevel u).
    { destruct (decide (zwCompressionLevel u = CompressionLevel u)); tauto. }
    destruct (obtain F u w) as [[[u2 w2] e]|e|q] eqn:Ho.
    + destruct e as [e|]; [discriminate|]. cbn. intros Hr.
      apply run_zw_panic in Hr as [-> Hr]. right. split; [done|].
      split; [|done].
      apply obtain_handle in Ho as [[Hz Hz']|Hz].
      * rewrite Hz in Hr. destruct Hr as [?|[?|?]]; [done|auto..].
      * destruct Hz as [Hz|[Hz|Hz]]; rewrite Hz in Hr;
          destruct Hr as [?|[?|?]]; discriminate.
    + by destruct (obtain_not_err F _ _ _ Ho).
    + cbn. intros [= <-]. left. by apply obtain_panic in Ho.
Qed.

(** The writer of [WriteMessage] is the one its first part leaves, and
    the second part builds no compressor. *)
Lemma WriteMessage_writer {float64 : Type} (J : @json_lib float64)
    (F : flate_lib) (E : env) (m : @Message float64) (u : UDPWriter)
    (w : world) :
  (WriteMessage J F E m u w).1.1 = (prepare J F m u w).1.1
  ∧ built (WriteMessage J F E m u w).1.2 = built (prepare J F m u w).1.2
  ∧ (is_err (prepare J F m u w).2 = true ->
     (WriteMessage J F E m u w).1.2 = (prepare J F m u w).1.2
     ∧ (WriteMessage J F E m u w).2
       = match (prepare J F m u w).2 with
         | Err e => Err e
         | _ => Ok tt
         end).
Proof.
  unfold WriteMessage.
  destruct (prepare J F m u w) as [[u2 w2] [z|e|p]]; cbn; [|done..].
  destruct (send_world E z w2) as (ds & dr & r & Hs & _).
  rewrite Hs. cbn. done.
Qed.

(** X13.  Which compressor a call with gzip or zlib runs, on a writer that
    holds one.  [WriteMessage] keeps the compressor in [zw], of whatever
    kind and level it is, when the two fields that record the settings
    of the compressor equal the settings of the writer, and it builds
    nothing.  Otherwise it calls the constructor of the chosen type at
    the chosen level: the new compressor replaces the old one, or, when
    the constructor fails, the call returns its error, sends nothing and
    leaves the nil pointer of the constructor in [zw]. *)
Theorem WriteMessage_compressor_choice {float64 : Type}
    (J : @json_lib float64) (F : flate_lib) (E : env)
    (m : @Message float64) (u : UDPWriter) (w : world)
    (mBytes : list byte) (h : handle) :
  json_Marshal J m = Ok mBytes ->
  zw u = Some h ->
  CompressionType u = CompressGzip ∨ CompressionType u = CompressZlib ->
  let u' := (WriteMessage J F E m u w).1.1 in
  let w' := (WriteMessage J F E m u w).1.2 in
  let gz := bool_decide (CompressionType u = CompressGzip) in
  if decide (zwCompressionType u = CompressionType u
             ∧ zwCompressionLevel u = CompressionLevel u)
  then zw u' = Some h ∧ built w' = built w
  else match NewWriterLevel F (CompressionType u) (CompressionLevel u) with
       | None =>
         zw u' = Some ((if gz then GzipWriter else ZlibWriter)
                         (CompressionLevel u) (built w))
         ∧ built w' = S (built w)
       | Some e =>
         (WriteMessage J F E m u w).2 = Err (ErrLib e)
         ∧ zw u' = Some (if gz then NilGzipWriter else NilZlibWriter)
         ∧ w' = w
       end.
Proof.
  intros Hj Hz Ht u' w' gz. unfold u', w', gz.
  destruct (WriteMessage_writer J F E m u w) as (-> & -> & Herr).
  revert Herr. unfold prepare. rewrite Hj.
  destruct (decide (zwCompressionType u = CompressionType u
                    ∧ zwCompressionLevel u = CompressionLevel u))
    as [[H1 H2]|Hne].
  - rewrite decide_False by (intros [?|?]; congruence).
    intros _. unfold obtain. rewrite Hz.
    destruct Ht as [Ht|Ht]; rewrite Ht.
    + rewrite decide_True by done. cbn. done.
    + rewrite decide_False by done. rewrite decide_True by done. cbn. done.
  - rewrite decide_True
      by (destruct (decide (zwCompressionType u = CompressionType u));
          [right; intros ?; apply Hne; by split|by left]).
    unfold obtain. cbn [zw set_zw CompressionType CompressionLevel].
    destruct Ht as [Ht|Ht]; rewrite Ht.
    + rewrite decide_True by done. rewrite bool_decide_eq_true_2 by done.
      destruct (NewWriterLevel F CompressGzip (CompressionLevel u)) as [e|].
      * cbn. intros Herr. destruct Herr as [-> ->]; done.
      * cbn. done.
    + rewrite decide_False by done. rewrite decide_True by done.
      rewrite bool_decide_eq_false_2 by done.
      destruct (NewWriterLevel F CompressZlib (CompressionLevel u)) as [e|].
      * cbn. intros Herr. destruct Herr as [-> ->]; done.
      * cbn. done.
Qed.

(** ** Further properties of UnmarshalJSON *)

Section AbsorbFacts.
Context {float64 : Type}.
Variable J : @json_lib float64.
Implicit Types (m : @Message float64) (v : @value float64)
  (order : list (string * @value float64))
  (i : gmap string (@value float64)).

Lemma Message_eq m1 m2 :
  Version m1 = Version m2 -> Host m1 = Host m2 -> Short m1 = Short m2 ->
  Full m1 = Full m2 -> TimeUnix m1 = TimeUnix m2 -> Level m1 = Level m2 ->
  Facility m1 = Facility m2 -> File m1 = File m2 -> Line m1 = Line m2 ->
  Extra m1 = Extra m2 -> m1 = m2.
Proof. destruct m1, m2. cbn. by intros -> -> -> -> -> -> -> -> -> ->. Qed.

(** An entry with a non-empty key that is not a mistyped fixed field is
    taken by the loop body. *)
Lemma well_typed_good k v :
  k ≠ ""%string -> ¬ mistyped (k, v) -> good J (k, v).
Proof.
  intros Hk Hm m. cbn.
  pose proof (decode_entry_not_err J m k v) as He.
  destruct (decode_entry J m k v) as [m'|e|p] eqn:Hd; [eauto|discriminate|].
  apply decode_entry_panic_kind in Hd as [[_ ?]|[_ ?]]; done.
Qed.

(** The field that a key sets, after a run over entries with distinct
    keys. *)
Lemma foldl_step_field {A} (get : @Message float64 -> A) name read :
  sets J get name read ->
  forall order m, NoDup order.*1 ->
  get (foldl (step J) m order)
  = field_after (list_to_map order) name read (get m).
Proof.
  intros Hs order m Hnd. unfold field_after.
  destruct ((list_to_map order : gmap string value) !! name) as [v|] eqn:Hl.
  - apply elem_of_list_to_map in Hl; [|done].
    destruct (read v) as [a|] eqn:Hr.
    + by apply (foldl_step_present J get name read Hs order m v a).
    + cbn. revert m Hnd Hl Hr.
      induction order as [|[k v'] order IH]; intros m Hnd Hl Hr.
      * by apply elem_of_nil in Hl.
      * rewrite fmap_cons in Hnd. apply NoDup_cons in Hnd as [Hk Hnd].
        cbn [foldl]. apply elem_of_cons in Hl as [[= <- <-]|Hl].
        -- rewrite (foldl_step_absent J get name read Hs) by exact Hk.
           rewrite Hs, String.eqb_refl. by rewrite Hr.
        -- rewrite IH by done. rewrite Hs.
           destruct (String.eqb k name) eqn:Heq; [|done].
           apply String.eqb_eq in Heq. subst k.
           exfalso. apply Hk. apply list_elem_of_fmap. by exists (name, v).
  - apply not_elem_of_list_to_map in Hl.
    by apply (foldl_step_absent J get name read Hs).
Qed.

Lemma step_Extra_opt m k v :
  Extra (step J m (k, v))
  = if starts_underscore k then Some (<[k := v]> (entries (Extra m)))
    else Extra m.
Proof.
  unfold step; cbn [fst snd].
  destruct k as [|c k]; [reflexivity|]. unfold decode_entry.
  cbn [starts_underscore].
  destruct (Ascii.eqb c "_"); [reflexivity|]. unfold decode_fixed.
  repeat (match goal with
    | |- context [if String.eqb ?a ?b then _ else _] =>
      destruct (String.eqb a b); [destruct v; reflexivity|]
    end).
  reflexivity.
Qed.

(** [Extra] stays as it is, nil included, over entries without an
    underscore key, and is a map once such an entry has been visited. *)
Lemma foldl_Extra_untouched order : forall m,
  Forall (fun kv => starts_underscore kv.1 = false) order ->
  Extra (foldl (step J) m order) = Extra m.
Proof.
  induction order as [|[k v] order IH]; intros m Hall; [done|].
  apply Forall_cons in Hall as [Hk Hall]. cbn [foldl].
  rewrite IH by done. rewrite step_Extra_opt. cbn in Hk. by rewrite Hk.
Qed.

Lemma foldl_Extra_made order : forall m,
  is_Some (Extra m)
  ∨ Exists (fun kv => starts_underscore kv.1 = true) order ->
  is_Some (Extra (foldl (step J) m order)).
Proof.
  induction order as [|[k v] order IH]; intros m [Hm|Hex].
  - done.
  - by apply Exists_nil in Hex.
  - cbn [foldl]. apply IH. left. rewrite step_Extra_opt.
    by destruct (starts_underscore k).
  - cbn [foldl]. apply IH. apply Exists_cons in Hex as [Hk|Hex].
    + left. rewrite step_Extra_opt. cbn in Hk. by rewrite Hk.
    + by right.
Qed.

Lemma lookup_underscored i k :
  underscored i !! k
  = if starts_underscore k then i !! k else None.
Proof.
  unfold underscored. destruct (starts_underscore k) eqn:Hk.
  - destruct (i !! k) as [v|] eqn:Hv.
    + by apply map_lookup_filter_Some.
    + apply map_lookup_filter_None. by left.
  - apply map_lookup_filter_None. right. intros x _. cbn.
    rewrite Hk. discriminate.
Qed.

(** The whole message after a run over the entries of [i], in any
    order. *)
Lemma foldl_step_absorbed order i m :
  order ≡ₚ map_to_list i ->
  foldl (step J) m order = absorbed J i m.
Proof.
  intros Hperm.
  assert (Hnd : NoDup order.*1).
  { rewrite Hperm. apply NoDup_fst_map_to_list. }
  assert (Hi : (list_to_map order : gmap string value) = i).
  { rewrite (list_to_map_proper order (map_to_list i)) by done.
    apply list_to_map_to_list. }
  apply Message_eq; unfold absorbed; cbn [Version Host Short Full TimeUnix
    Level Facility File Line Extra].
  - rewrite <- Hi. apply foldl_step_field; [apply sets_Version|done].
  - rewrite <- Hi. apply foldl_step_field; [apply sets_Host|done].
  - rewrite <- Hi. apply foldl_step_field; [apply sets_Short|done].
  - rewrite <- Hi. apply foldl_step_field; [apply sets_Full|done].
  - rewrite <- Hi. apply foldl_step_field; [apply sets_TimeUnix|done].
  - rewrite <- Hi. apply foldl_step_field; [apply sets_Level|done].
  - rewrite <- Hi. apply foldl_step_field; [apply sets_Facility|done].
  - rewrite <- Hi. apply foldl_step_field; [apply sets_File|done].
  - rewrite <- Hi. apply foldl_step_field; [apply sets_Line|done].
  - destruct (decide (underscored i = ∅)) as [He|Hne].
    + apply foldl_Extra_untouched. apply Forall_forall. intros [k v] Hin.
      cbn. rewrite Hperm in Hin. apply elem_of_map_to_list in Hin.
      destruct (starts_underscore k) eqn:Hk; [|done].
      assert (underscored i !! k = Some v) as Hu
        by (by rewrite lookup_underscored, Hk).
      rewrite He, lookup_empty in Hu. discriminate.
    + destruct (foldl_Extra_made order m) as [e He].
      { right. apply Exists_exists.
        destruct (map_choose _ Hne) as (k & v & Hkv).
        rewrite lookup_underscored in Hkv.
        destruct (starts_underscore k) eqn:Hk; [|discriminate].
        exists (k, v). split; [|done].
        rewrite Hperm. by apply elem_of_map_to_list. }
      rewrite He. f_equal. apply map_eq. intros k.
      pose proof (foldl_step_Extra J order m k Hnd) as Hl.
      rewrite He, Hi in Hl. change (entries (Some e)) with e in Hl.
      rewrite Hl.
      rewrite lookup_union, lookup_underscored.
      destruct (starts_underscore k).
      * destruct (i !! k); [|by rewrite (left_id_L None (∪))].
        by destruct (entries (Extra m) !! k).
      * by rewrite (left_id_L None (∪)).
Qed.

End AbsorbFacts.

(** On an object without the empty key and without a mistyped fixed
    field every run ends with the message [absorbed]. *)
Lemma decode_absorbs {float64 : Type} (J : @json_lib float64)
    (m : @Message float64) (data : list byte)
    (i : gmap string (@value float64)) (r : res (@Message float64)) :
  Unmarshal J data = Some i ->
  i !! ""%string = None ->
  (forall k v, i !! k = Some v -> ¬ mistyped (k, v)) ->
  UnmarshalJSON J m data r ->
  r = Ok (absorbed J i m).
Proof.
  intros Hi Hempty Htyped Hr.
  destruct Hr as [Hnone|i' order Hi' Hperm]; [congruence|].
  assert (i' = i) as -> by congruence.
  rewrite (decode_range_good J order m).
  - f_equal. by apply foldl_step_absorbed.
  - apply Forall_forall. intros [k v] Hin. rewrite Hperm in Hin.
    apply elem_of_map_to_list in Hin. apply well_typed_good.
    + intros ->. congruence.
    + by apply Htyped.
Qed.

(** X14.  An object without the empty key and without a mistyped fixed
    field.  Every run of [UnmarshalJSON] ends normally and with the same
    message, whatever the order in which the entries are visited: each
    fixed field holds the value of its key, or its old value when the
    object has no such key; keys that are neither fixed names nor start
    with an underscore are ignored; the underscore entries are added to
    [Extra] over the entries it had, and [Extra] is left as it was, nil
    included, when there is none. *)
Theorem UnmarshalJSON_absorbs {float64 : Type} (J : @json_lib float64)
    (m : @Message float64) (data : list byte)
    (i : gmap string (@value float64)) (r : res (@Message float64)) :
  Unmarshal J data = Some i ->
  i !! ""%string = None ->
  (forall k v, i !! k = Some v -> ¬ mistyped (k, v)) ->
  UnmarshalJSON J m data r ->
  r = Ok (absorbed J i m)
  ∧ Version (absorbed J i m)
    = match i !! "version"%string with
      | Some (JStr s) => s
      | _ => Version m
      end
  ∧ Extra (absorbed J i m)
    = (if decide (underscored i = ∅) then Extra m
       else Some (underscored i ∪ entries (Extra m)))
  ∧ (forall k, underscored i !! k
               = if starts_underscore k then i !! k else None).
Proof.
  intros Hi Hempty Htyped Hr.
  split; [by apply (decode_absorbs J m data i r)|].
  split; [|split; [reflexivity|apply lookup_underscored]].
  unfold absorbed, field_after. cbn.
  destruct (i !! "version"%string) as [[]|]; reflexivity.
Qed.

(** X15.  Once [json.Unmarshal] has read an object, [UnmarshalJSON] never
    returns an error: a run ends normally or panics, and it panics
    exactly when the object holds the empty key or a known fixed-field
    key with a value of another JSON type, in whatever order the entries
    are visited. *)
Theorem UnmarshalJSON_panics_iff {float64 : Type} (J : @json_lib float64)
    (m : @Message float64) (data : list byte)
    (i : gmap string (@value float64)) (r : res (@Message float64)) :
  Unmarshal J data = Some i ->
  UnmarshalJSON J m data r ->
  is_err r = false
  ∧ (is_panic r = true
     <-> is_Some (i !! ""%string)
         ∨ ∃ k v, i !! k = Some v ∧ mistyped (k, v)).
Proof.
  intros Hi Hr.
  destruct Hr as [Hnone|i' order Hi' Hperm]; [congruence|].
  assert (i' = i) as -> by congruence.
  split; [apply decode_range_not_err|]. split.
  - intros Hp.
    destruct (decode_range J order m) as [?|?|p] eqn:Hd; try discriminate.
    apply decode_range_panic_kind in Hd as (k & v & Hin & Hk).
    rewrite Hperm in Hin. apply elem_of_map_to_list in Hin.
    destruct Hk as [[_ ->]|[_ Hm]]; [left; by rewrite Hin|].
    right. by exists k, v.
  - intros [[v Hv]|(k & v & Hkv & Hm)].
    + apply (decode_range_panics J order "" v).
      * rewrite Hperm. by apply elem_of_map_to_list.
      * reflexivity.
    + apply (decode_range_panics J order k v).
      * rewrite Hperm. by apply elem_of_map_to_list.
      * intros m'. by rewrite (decode_entry_mistyped J m' k v Hm).
Qed.

(** ** Encoding, then decoding, with any extension keys *)

Section RoundTripFacts.
Context {float64 : Type}.
Variable J : @json_lib float64.
Variable reads : list byte -> @value float64 -> Prop.
Implicit Types (m : @Message float64).

(** As [faithful_decodes], for extension keys that are only known not to
    be fixed field names. *)
Lemma faithful_decodes_any_keys m :
  reads_objects J reads ->
  (forall k, is_Some (entries (Extra m) !! k) -> k ∉ fixed_fields.*1) ->
  json_faithful J reads m ->
  decodes_to_object J m.
Proof.
  intros [Hobj Hnames] Hkeys
    (Hstr & (ts & Hts & Rts) & (fl & Rfl & Hfl) & (fn & Rfn & Hfn) & Hext).
  set (E := entries (Extra m)) in *.
  destruct (encoded_entries_read J reads E (sorted_entries E) Hext)
    as (ems & Hems & Hall).
  { apply Forall_forall. intros [k v] Hin.
    rewrite sorted_entries_perm in Hin. by apply elem_of_map_to_list. }
  exists ts, ems, fl, fn. repeat split; try assumption.
  rewrite (Hobj (fixed_members J m ts ++ ems)
             (fixed_entries m fl fn ++ sorted_entries E)).
  - f_equal. rewrite list_to_map_app. unfold fixed_object. f_equal.
    rewrite (list_to_map_proper (sorted_entries E) (map_to_list E)).
    + apply list_to_map_to_list.
    + rewrite sorted_entries_perm. apply NoDup_fst_map_to_list.
    + apply sorted_entries_perm.
  - apply Forall2_app; [|exact Hall].
    unfold fixed_fields in Hnames. cbn in Hnames.
    repeat (apply Forall_cons in Hnames as [? Hnames]).
    repeat (apply Forall_cons in Hstr as [? Hstr]).
    unfold fixed_members, fixed_entries.
    repeat (constructor; [split; assumption|]). constructor.
  - rewrite fmap_app. apply NoDup_app. split; [apply NoDup_fixed_names|].
    split.
    + intros k Hk1 Hk2.
      apply list_elem_of_fmap in Hk2 as ([k2 v2] & Heq & Hin2).
      cbn in Heq. subst k2.
      rewrite sorted_entries_perm in Hin2.
      apply elem_of_map_to_list in Hin2.
      apply (Hkeys k); [by rewrite Hin2|]. exact Hk1.
    + rewrite sorted_entries_perm. apply NoDup_fst_map_to_list.
Qed.

Lemma fixed_entry_not_mistyped m fl fn k v :
  (k, v) ∈ fixed_entries m fl fn -> ¬ mistyped (k, v).
Proof.
  intros Hin Hm.
  destruct (fixed_entry_good J m fl fn k v Hin) as [Hg _].
  destruct (Hg m) as [m' Hm']. cbn in Hm'.
  by rewrite (decode_entry_mistyped J m k v Hm) in Hm'.
Qed.

Lemma lookup_encoded_fixed m fl fn k v :
  (k, v) ∈ fixed_entries m fl fn ->
  (fixed_object m fl fn ∪ entries (Extra m)) !! k = Some v.
Proof. intros Hin. apply lookup_union_Some_l. by apply lookup_fixed_object. Qed.

Lemma fixed_entries_keys m fl fn :
  (fixed_entries m fl fn).*1 = fixed_fields.*1.
Proof. reflexivity. Qed.

Lemma lookup_fixed_object_None m fl fn k :
  k ∉ fixed_fields.*1 -> fixed_object m fl fn !! k = None.
Proof.
  intros Hk. unfold fixed_object. apply not_elem_of_list_to_map_1.
  by rewrite fixed_entries_keys.
Qed.

End RoundTripFacts.

(** X16.  Encoding a message and decoding the result, for extension keys
    that are non-empty and not fixed field names but need not start with
    an underscore (the library reads back the objects and the values it
    writes, as [reads_objects] and [json_faithful] say).  Every run of
    the decoder returns the nine fixed fields of the original, and of
    the extension entries only those whose key starts with an underscore:
    the others are dropped without an error. *)
Theorem roundtrip_keeps_underscored {float64 : Type} (J : @json_lib float64)
    (reads : list byte -> @value float64 -> Prop)
    (m m0 : @Message float64) (data : list byte)
    (r : res (@Message float64)) :
  reads_objects J reads ->
  (forall k, is_Some (entries (Extra m) !! k) ->
     k ≠ ""%string ∧ k ∉ fixed_fields.*1) ->
  json_faithful J reads m ->
  MarshalJSON J m = Ok data ->
  UnmarshalJSON J m0 data r ->
  ∃ m', r = Ok m'
    ∧ Version m' = Version m ∧ Host m' = Host m
    ∧ Short m' = Short m ∧ Full m' = Full m
    ∧ TimeUnix m' = TimeUnix m ∧ Level m' = Level m
    ∧ Facility m' = Facility m ∧ File m' = File m
    ∧ Line m' = Line m
    ∧ Extra m'
      = (if decide (underscored (entries (Extra m)) = ∅) then Extra m0
         else Some (underscored (entries (Extra m)) ∪ entries (Extra m0))).
Proof.
  intros Hlib Hkeys Hfaith Hm Hr.
  destruct (faithful_decodes_any_keys J reads m Hlib) as
    (ts & ems & fl & fn & Hts & Hems & Hun & Hfl & Hfn);
    [intros k Hk; by apply Hkeys|done|].
  rewrite MarshalJSON_eq, Hts, Hems in Hm. injection Hm as <-.
  set (E := entries (Extra m)) in *.
  set (obj := fixed_object m fl fn ∪ E) in *.
  assert (Hfix : forall k v, In (k, v) (fixed_entries m fl fn) ->
            obj !! k = Some v).
  { intros k v Hin. apply lookup_encoded_fixed. by apply list_elem_of_In. }
  rewrite (decode_absorbs J m0 _ obj r Hun); [| | |done].
  - exists (absorbed J obj m0). split; [done|].
    unfold absorbed, field_after.
    cbn [Version Host Short Full TimeUnix Level Facility File Line Extra].
    rewrite (Hfix "version"%string (JStr (Version m))) by (cbn; tauto).
    rewrite (Hfix "host"%string (JStr (Host m))) by (cbn; tauto).
    rewrite (Hfix "short_message"%string (JStr (Short m))) by (cbn; tauto).
    rewrite (Hfix "full_message"%string (JStr (Full m))) by (cbn; tauto).
    rewrite (Hfix "timestamp"%string (JNum (TimeUnix m))) by (cbn; tauto).
    rewrite (Hfix "level"%string (JNum fl)) by (cbn; tauto).
    rewrite (Hfix "facility"%string (JStr (Facility m))) by (cbn; tauto).
    rewrite (Hfix "file"%string (JStr (File m))) by (cbn; tauto).
    rewrite (Hfix "line"%string (JNum fn)) by (cbn; tauto).
    cbn [read_string read_float read_int32 read_int default from_option id].
    rewrite Hfl, Hfn.
    assert (Hu : underscored obj = underscored E).
    { apply map_eq. intros k. rewrite !lookup_underscored.
      destruct (starts_underscore k) eqn:Hk; [|done].
      unfold obj. apply lookup_union_r.
      destruct (fixed_object m fl fn !! k) as [v|] eqn:Hv; [|done].
      apply lookup_fixed_object in Hv.
      destruct (fixed_entry_good J m fl fn k v Hv). congruence. }
    rewrite Hu. repeat split; reflexivity.
  - unfold obj. apply lookup_union_None. split.
    + apply lookup_fixed_object_None. intros Hin. cbn in Hin.
      repeat (apply elem_of_cons in Hin as [Hin|Hin]; [discriminate|]).
      by apply elem_of_nil in Hin.
    + destruct (E !! ""%string) eqn:He; [|done].
      destruct (Hkeys ""%string) as [Hne _]; [by rewrite He|done].
  - intros k v Hkv. unfold obj in Hkv.
    apply lookup_union_Some_raw in Hkv as [Hkv|[_ Hkv]].
    + apply lookup_fixed_object in Hkv.
      by apply (fixed_entry_not_mistyped J m fl fn).
    + intros (t & Hin & _). cbn in Hin.
      destruct (Hkeys k) as [_ Hnf]; [by rewrite Hkv|].
      apply Hnf. apply list_elem_of_fmap. by exists (k, t).
Qed.

(** X17.  Sending without compression and decoding what was sent.  For a
    message whose extension keys all start with an underscore and whose
    values the library reads back as it writes them, whose encoding fits
    one datagram, on a connection that takes the write: [WriteMessage] returns nil, the one datagram it
    hands over is the JSON encoding, and every run of [UnmarshalJSON] on
    that datagram gives back the fixed fields and the extension mapping
    of the message. *)
Theorem WriteMessage_then_decode {float64 : Type} (J : @json_lib float64)
    (F : flate_lib) (E : env)
    (reads : list byte -> @value float64 -> Prop)
    (m m0 : @Message float64) (u : UDPWriter) (w : world) :
  reads_objects J reads ->
  (forall k, is_Some (entries (Extra m) !! k) -> starts_underscore k = true) ->
  json_faithful J reads m ->
  entries (Extra m0) = ∅ ->
  CompressionType u = NoCompress ->
  (forall b, MarshalJSON J m = Ok b ->
     compact J b = Some b ∧ blen b <= ChunkSize ∧ accepted E (sent w) b) ->
  ∃ data,
    WriteMessage J F E m u w
    = (set_zw (Some (BufferedWriter (built w))) u,
       World (sent w ++ [data]) (draws w) (S (built w)), Ok tt)
    ∧ forall r, UnmarshalJSON J m0 data r ->
        ∃ m', r = Ok m'
          ∧ Version m' = Version m ∧ Host m' = Host m
          ∧ Short m' = Short m ∧ Full m' = Full m
          ∧ TimeUnix m' = TimeUnix m ∧ Level m' = Level m
          ∧ Facility m' = Facility m ∧ File m' = File m
          ∧ Line m' = Line m
          ∧ entries (Extra m') = entries (Extra m).
Proof.
  intros Hlib Hkeys Hfaith Hm0 Ht Hfit.
  destruct (roundtrip_of_decoded_object J m m0 Hkeys) as (data & Hm & _ & Hdec);
    [by apply (faithful_decodes J reads)|done|].
  destruct (Hfit data Hm) as (Hc & Hlen & Hacc).
  exists data. split; [|exact Hdec].
  assert (Hj : json_Marshal J m = Ok data).
  { unfold json_Marshal. rewrite Hm. cbn. by rewrite Hc. }
  rewrite (WriteMessage_prepared J F E m u w _ _ data
             (prepare_NoCompress J F m u w data Hj Ht)).
  rewrite send_unchunked.
  - cbn. by rewrite single_write_accepted.
  - rewrite numChunks_spec. change ChunkSize with 1420 in Hlen.
    by rewrite decide_True.
Qed.

(** ** Write and the HTTP writer *)

(** The first index of a byte, when there is one. *)
Lemma IndexByte_found p c (i : nat) :
  IndexByte p c = Z.of_nat i ->
  p !! i = Some c ∧ c ∉ take i p.
Proof.
  unfold IndexByte.
  destruct (list_find (fun b => b = c) p) as [[j b]|] eqn:Hf; [|lia].
  intros Hj. assert (j = i) as -> by lia.
  apply list_find_Some in Hf as (Hl & -> & Hbefore).
  split; [done|]. intros Hin.
  apply list_elem_of_lookup in Hin as [k Hk].
  assert (Hki : (k < i)%nat).
  { apply lookup_lt_Some in Hk. rewrite length_take in Hk. lia. }
  rewrite lookup_take_lt in Hk by done.
  by apply (Hbefore k c).
Qed.

Lemma IndexByte_none p c : IndexByte p c < 0 -> c ∉ p.
Proof.
  unfold IndexByte.
  destruct (list_find (fun b => b = c) p) as [[j b]|] eqn:Hf; [lia|].
  intros _ Hin. apply list_find_None in Hf.
  by apply (proj1 (Forall_forall _ _) Hf c).
Qed.

Lemma IndexByte_range p c : - 1 <= IndexByte p c ∧ IndexByte p c < blen p.
Proof.
  unfold IndexByte, blen.
  destruct (list_find (fun b => b = c) p) as [[j b]|] eqn:Hf; [|lia].
  apply list_find_Some in Hf as (Hl & _). apply lookup_lt_Some in Hl. lia.
Qed.

(** The cut of the trimmed input: all of it in [short] when it has no
    newline (or starts with one), and otherwise the first line in [short]
    and all of it in [full]. *)
Lemma split_lines_spec (p : list byte) :
  ∃ short full,
    split_lines p = Ok (short, full)
    ∧ (short = p ∧ full = []
         ∧ ((newline ∉ p) ∨ (p !! 0%nat = Some newline))
       ∨ full = p ∧ short ≠ [] ∧ (newline ∉ short)
         ∧ (∃ rest, p = short ++ newline :: rest)).
Proof.
  unfold split_lines. pose proof (IndexByte_range p newline) as Hr.
  destruct (decide (IndexByte p newline > 0)) as [Hpos|Hnp].
  - unfold go_slice. rewrite decide_True by lia.
    change (Z.to_nat 0) with 0%nat. rewrite drop_0, Z.sub_0_r.
    exists (take (Z.to_nat (IndexByte p newline)) p), p.
    split; [done|]. right.
    destruct (IndexByte_found p newline (Z.to_nat (IndexByte p newline)))
      as [Hl Hnot]; [lia|].
    split; [done|]. split.
    + intros Hnil. apply (f_equal length) in Hnil.
      rewrite length_take in Hnil. unfold blen in Hr.
      change (length (@nil byte)) with 0%nat in Hnil. lia.
    + split; [done|]. exists (drop (S (Z.to_nat (IndexByte p newline))) p).
      rewrite <- (take_drop_middle p _ newline Hl) at 1. done.
  - exists p, []. split; [done|]. left. split; [done|]. split; [done|].
    destruct (decide (IndexByte p newline < 0)) as [Hneg|Hz].
    + left. by apply IndexByte_none.
    + right. by destruct (IndexByte_found p newline 0) as [Hl _]; [lia|].
Qed.

(** X18.  [Write] cuts the trimmed input at its first newline and hands one
    message to [WriteMessage].  Without a newline all of the input is the
    short message and the full message is empty; otherwise the short
    message is the non-empty first line, without its newline, and the full
    message is all of the trimmed input.  The slice never goes out of
    bounds, and the count returned with a nil error is the length of the
    trimmed input. *)
Theorem Write_first_line {float64 : Type} (J : @json_lib float64)
    (F : flate_lib) (E : env) (T : write_lib float64)
    (p : list byte) (u : UDPWriter) (w : world) :
  let t := TrimSpace T p in
  ∃ short full : list byte,
    (short = t ∧ full = []
       ∧ ((newline ∉ t) ∨ (t !! 0%nat = Some newline))
     ∨ full = t ∧ short ≠ [] ∧ (newline ∉ short)
       ∧ (∃ rest, t = short ++ newline :: rest))
    ∧ Write J F E T p u w
      = ((WriteMessage J F E (Write_message T u short full) u w).1,
         match (WriteMessage J F E (Write_message T u short full) u w).2 with
         | Ok _ => Ok (blen t)
         | Err e => Err e
         | Panic q => Panic q
         end).
Proof.
  intros t.
  destruct (split_lines_spec t) as (short & full & Hs & Hcases).
  exists short, full. split; [exact Hcases|].
  unfold Write. fold t. rewrite Hs.
  by destruct (WriteMessage J F E (Write_message T u short full) u w)
    as [[u' w'] [[]|e|q]].
Qed.

(** X19.  [Write] on a writer set to [NoCompress], when the encoding of the
    message fits one datagram and the connection takes it.  One datagram
    is sent, the JSON object of the nine fixed fields alone (the message
    has an empty extension map), and the count returned is the length of
    the trimmed input, not of the input. *)
Theorem Write_NoCompress {float64 : Type} (J : @json_lib float64)
    (F : flate_lib) (E : env) (T : write_lib float64)
    (p short full ts : list byte) (u : UDPWriter) (w : world) :
  let msg := Write_message T u short full in
  let data := render_object (fixed_members J msg ts) in
  split_lines (TrimSpace T p) = Ok (short, full) ->
  CompressionType u = NoCompress ->
  enc_float J (TimeUnix msg) = Some ts ->
  compact J data = Some data ->
  blen data <= ChunkSize ->
  accepted E (sent w) data ->
  Write J F E T p u w
  = (set_zw (Some (BufferedWriter (built w))) u,
     World (sent w ++ [data]) (draws w) (S (built w)),
     Ok (blen (TrimSpace T p))).
Proof.
  intros msg data Hs Ht Hts Hc Hlen Hacc.
  assert (Hm : MarshalJSON J msg = Ok data).
  { rewrite MarshalJSON_eq, Hts.
    change (entries (Extra msg)) with (∅ : gmap string (@value float64)).
    rewrite (proj2 (sorted_entries_nil ∅) eq_refl).
    unfold data, fixed_members. simpl. done. }
  assert (Hj : json_Marshal J msg = Ok data).
  { unfold json_Marshal. rewrite Hm. cbn. by rewrite Hc. }
  unfold Write. rewrite Hs. fold msg.
  rewrite (WriteMessage_prepared J F E msg u w _ _ data
             (prepare_NoCompress J F msg u w data Hj Ht)).
  rewrite send_unchunked.
  - cbn. by rewrite single_write_accepted.
  - rewrite numChunks_spec. change ChunkSize with 1420 in Hlen.
    by rewrite decide_True.
Qed.

(** X20.  [HTTPWriter.WriteMessage] never panics; it returns nil exactly
    when the record encodes and the server answers the POST with status
    202 (any other status, 200 included, is an error); it makes one
    request, with the encoding as body and the JSON content type, when
    the record encodes, and none when it does not. *)
Theorem HTTP_WriteMessage_outcome {float64 : Type} (J : @json_lib float64)
    (H : http_env) (addr : string) (m : @Message float64)
    (posted : list request) :
  is_panic (HTTP_WriteMessage J H addr m posted).2 = false
  ∧ ((HTTP_WriteMessage J H addr m posted).2 = Ok tt
     <-> ∃ b status,
           json_Marshal J m = Ok b
           ∧ H posted (Request addr "application/json" b)
             = inr (202, status))
  ∧ (HTTP_WriteMessage J H addr m posted).1
    = match json_Marshal J m with
      | Ok b => posted ++ [Request addr "application/json" b]
      | _ => posted
      end.
Proof.
  unfold HTTP_WriteMessage.
  pose proof (json_Marshal_no_panic J m) as Hp.
  destruct (json_Marshal J m) as [b|e|q]; [|cbn..].
  - destruct (H posted _) as [e|[code status]] eqn:Hpost.
    + cbn. split; [done|]. split; [|done]. split; [discriminate|].
      intros (b' & st & [= <-] & Hst). congruence.
    + destruct (decide (code ≠ 202)) as [Hne|Heq]; cbn.
      * split; [done|]. split; [|done]. split; [discriminate|].
        intros (b' & st & [= <-] & Hst). congruence.
      * split; [done|]. split; [|done]. split; [|done]. intros _.
        exists b, status. split; [done|].
        rewrite Hpost. do 2 f_equal. by apply dec_stable.
  - split; [done|]. split; [|done].
    split; [discriminate|]. by intros (b' & st & [=] & _).
  - discriminate.
Qed.

(** ** The further properties on the reference libraries *)

Lemma writeChunked_empty_last_chunk_witness :
  ∃ ds : list (list byte),
    writeChunked reliable (zeros 2816) world0 = (World ([] ++ ds) 1 0, Ok tt)
    ∧ ds !! 2%nat = Some (magicChunked ++ id_bytes ++ [x02] ++ [x03]).
Proof.
  assert (Hn : numChunks (zeros 2816) = 3)
    by (by rewrite numChunks_zeros by lia).
  destruct (writeChunked_empty_last_chunk reliable (zeros 2816) world0)
    as (ds & Hw & _ & _ & Hlast).
  - vm_compute. reflexivity.
  - vm_compute. reflexivity.
  - lia.
  - split; reflexivity.
  - intros h b. split; reflexivity.
  - exists ds. split; [exact Hw|]. rewrite Hn in Hlast. exact Hlast.
Defined.

Lemma writeChunked_single_chunk_witness :
  writeChunked reliable (zeros 1415) world0
  = (World [chunk_datagram id_bytes 0 1 (zeros 1408)] 1 0,
     Err (ErrBytesLeft 7)).
Proof.
  rewrite (writeChunked_single_chunk reliable (zeros 1415) world0).
  - vm_compute. reflexivity.
  - vm_compute. discriminate.
  - split; reflexivity.
  - intros h b. split; reflexivity.
Defined.

Lemma WriteMessage_ok_sends_all_witness :
  ∃ z : list byte,
    (prepare RefJSON.lib stored big_msg plain_writer world0).2 = Ok z
    ∧ Z.of_nat (length (datagrams reliable z world0)) = numChunks z.
Proof.
  destruct (WriteMessage_ok_sends_all RefJSON.lib stored reliable big_msg
              plain_writer (set_zw (Some (BufferedWriter 0)) plain_writer)
              world0 (writeChunked reliable big_z (World [] 0 1)).1)
    as (z & Hp & _ & Hlen & _).
  - vm_compute. reflexivity.
  - exists z. by split.
Defined.

Lemma WriteMessage_fails_before_send_witness :
  (WriteMessage RefJSON.lib stored reliable example_msg odd_writer world0).2
    ≠ Ok tt
  ∧ sent (WriteMessage RefJSON.lib stored reliable example_msg odd_writer
            world0).1.2 = [].
Proof.
  destruct (WriteMessage_fails_before_send RefJSON.lib stored reliable
              example_msg odd_writer world0) as (Hr & Hs & _).
  - intros z. vm_compute. discriminate.
  - by split.
Defined.

Lemma WriteMessage_NoCompress_witness :
  WriteMessage RefJSON.lib stored reliable example_msg plain_writer world0
  = (set_zw (Some (BufferedWriter 0)) plain_writer,
     (send reliable example_z (World [] 0 1)).1,
     (send reliable example_z (World [] 0 1)).2).
Proof.
  apply (WriteMessage_NoCompress RefJSON.lib stored reliable example_msg
           plain_writer world0 example_z).
  - vm_compute. reflexivity.
  - reflexivity.
Defined.

Lemma WriteMessage_unknown_compression_witness :
  (WriteMessage RefJSON.lib stored reliable example_msg odd_writer world0).2
    = Panic (UnknownCompression 7)
  ∧ (WriteMessage RefJSON.lib stored reliable example_msg odd_writer
       world0).1.2 = world0.
Proof.
  apply (WriteMessage_unknown_compression RefJSON.lib stored reliable
           example_msg odd_writer world0 example_z).
  - vm_compute. reflexivity.
  - discriminate.
  - discriminate.
  - discriminate.
Defined.

Lemma WriteMessage_panics_only_witness :
  CompressionType odd_writer ≠ CompressGzip
  ∧ CompressionType odd_writer ≠ CompressZlib
  ∧ CompressionType odd_writer ≠ NoCompress.
Proof.
  destruct (WriteMessage_panics_only RefJSON.lib stored reliable example_msg
              odd_writer world0 (UnknownCompression 7))
    as [(_ & H)|(Hp & _)].
  - vm_compute. reflexivity.
  - exact H.
  - discriminate Hp.
Defined.

Lemma mixed_object_typed k (v : @value Z) :
  mixed_object !! k = Some v -> ¬ mistyped (k, v).
Proof.
  intros Hkv (t & Hin & Ht). cbn in Hin, Ht. unfold fixed_fields in Hin.
  repeat (apply elem_of_cons in Hin as [[= -> ->]|Hin];
    [ vm_compute in Hkv;
      first [ discriminate Hkv | injection Hkv as <-; discriminate Ht ] |]).
  by apply elem_of_nil in Hin.
Qed.

Lemma UnmarshalJSON_absorbs_witness :
  decode_range RefJSON.lib (map_to_list mixed_object) zero_msg
  = Ok (absorbed RefJSON.lib mixed_object zero_msg)
  ∧ Version (absorbed RefJSON.lib mixed_object zero_msg) = "1.1"%string
  ∧ Extra (absorbed RefJSON.lib mixed_object zero_msg)
    = Some {[ "_id"%string := JNum 7 ]}.
Proof.
  destruct (UnmarshalJSON_absorbs RefJSON.lib zero_msg mixed_data mixed_object
              (decode_range RefJSON.lib (map_to_list mixed_object) zero_msg))
    as (Hr & _).
  - vm_compute. reflexivity.
  - vm_compute. reflexivity.
  - apply mixed_object_typed.
  - eapply Unmarshal_ranges; [vm_compute; reflexivity|done].
  - split; [exact Hr|]. split; vm_compute; reflexivity.
Defined.

Lemma UnmarshalJSON_panics_iff_witness :
  is_panic (decode_range RefJSON.lib [("version"%string, JNum 1)] zero_msg)
  = true.
Proof.
  destruct (UnmarshalJSON_panics_iff RefJSON.lib zero_msg
              (render_object [(quote "version", RefJSON.decimal 1)])
              {[ "version"%string := JNum 1 ]}
              (decode_range RefJSON.lib [("version"%string, JNum 1)] zero_msg))
    as (_ & Hiff).
  - vm_compute. reflexivity.
  - eapply (Unmarshal_ranges _ _ _ {[ "version"%string := JNum 1 ]});
      [vm_compute; reflexivity|].
    by rewrite map_to_list_singleton.
  - apply Hiff. right. exists "version"%string, (JNum 1).
    split; [by rewrite lookup_singleton_eq|].
    exists true. split; [|reflexivity]. cbn. unfold fixed_fields.
    apply elem_of_cons. by left.
Defined.

Ltac ref_reads :=
  let c := fresh "c" in let r := fresh "r" in let Hc := fresh "Hc" in
  intros c r Hc;
  first [ reflexivity
        | destruct (is_delim_cases c Hc) as [-> | [-> | ->]]; reflexivity ].

Lemma mixed_msg_faithful : json_faithful RefJSON.lib RefJSON.reads mixed_msg.
Proof.
  split; [|split; [|split; [|split]]].
  - repeat (constructor; [ref_reads|]). constructor.
  - exists (RefJSON.decimal 17). split; [reflexivity|]. ref_reads.
  - exists 6. split; [|reflexivity]. ref_reads.
  - exists 0. split; [|reflexivity]. ref_reads.
  - intros k v Hk.
    change (entries (Extra mixed_msg))
      with (<[ "user"%string := JNum 1 ]>
              ({[ "_id"%string := JNum 2 ]} : gmap string (@value Z))) in Hk.
    apply lookup_insert_Some in Hk as [[<- <-]|[_ Hk]].
    + split; [ref_reads|]. exists (RefJSON.decimal 1).
      split; [reflexivity|]. ref_reads.
    + apply lookup_singleton_Some in Hk as [<- <-].
      split; [ref_reads|]. exists (RefJSON.decimal 2).
      split; [reflexivity|]. ref_reads.
Qed.

Lemma roundtrip_keeps_underscored_witness :
  ∃ data,
    MarshalJSON RefJSON.lib mixed_msg = Ok data
    ∧ forall r, UnmarshalJSON RefJSON.lib zero_msg data r ->
        ∃ m', r = Ok m' ∧ Extra m' = Some {[ "_id"%string := JNum 2 ]}.
Proof.
  destruct (MarshalJSON RefJSON.lib mixed_msg) as [data| |] eqn:Hm;
    [|vm_compute in Hm; discriminate..].
  exists data. split; [done|]. intros r Hr.
  destruct (roundtrip_keeps_underscored RefJSON.lib RefJSON.reads mixed_msg
              zero_msg data r)
    as (m' & -> & _ & _ & _ & _ & _ & _ & _ & _ & _ & He).
  - exact RefJSON_reads_objects.
  - intros k [v Hk].
    change (entries (Extra mixed_msg))
      with (<[ "user"%string := JNum 1 ]>
              ({[ "_id"%string := JNum 2 ]} : gmap string (@value Z))) in Hk.
    apply lookup_insert_Some in Hk as [[<- _]|[_ Hk]].
    + split; [discriminate|]. intros Hin. cbn in Hin.
      repeat (apply elem_of_cons in Hin as [Hin|Hin]; [discriminate|]).
      by apply elem_of_nil in Hin.
    + apply lookup_singleton_Some in Hk as [<- _].
      split; [discriminate|]. intros Hin. cbn in Hin.
      repeat (apply elem_of_cons in Hin as [Hin|Hin]; [discriminate|]).
      by apply elem_of_nil in Hin.
  - exact mixed_msg_faithful.
  - exact Hm.
  - exact Hr.
  - exists m'. split; [done|]. rewrite He. vm_compute. reflexivity.
Defined.

Lemma example_msg_faithful :
  json_faithful RefJSON.lib RefJSON.reads example_msg.
Proof.
  split; [|split; [|split; [|split]]].
  - repeat (constructor; [ref_reads|]). constructor.
  - exists (RefJSON.decimal 17). split; [reflexivity|]. ref_reads.
  - exists 6. split; [|reflexivity]. ref_reads.
  - exists 0. split; [|reflexivity]. ref_reads.
  - intros k v Hk.
    change (entries (Extra example_msg))
      with ({[ "_user_id"%string := JNum 42 ]} : gmap string (@value Z)) in Hk.
    apply lookup_singleton_Some in Hk as [<- <-].
    split; [ref_reads|]. exists (RefJSON.decimal 42).
    split; [reflexivity|]. ref_reads.
Qed.

Lemma WriteMessage_then_decode_witness :
  ∃ data,
    WriteMessage RefJSON.lib stored reliable example_msg plain_writer world0
    = (set_zw (Some (BufferedWriter 0)) plain_writer, World [data] 0 1, Ok tt)
    ∧ forall r, UnmarshalJSON RefJSON.lib zero_msg data r ->
        ∃ m', r = Ok m' ∧ Short m' = "boot"%string
          ∧ entries (Extra m') = {[ "_user_id"%string := JNum 42 ]}.
Proof.
  destruct (WriteMessage_then_decode RefJSON.lib stored reliable RefJSON.reads
              example_msg zero_msg plain_writer world0)
    as (data & Hw & Hall).
  - exact RefJSON_reads_objects.
  - intros k [v Hk]. change (entries (Extra example_msg))
      with ({[ "_user_id"%string := JNum 42 ]} : gmap string (@value Z)) in Hk.
    apply lookup_singleton_Some in Hk as [<- _]. reflexivity.
  - exact example_msg_faithful.
  - reflexivity.
  - reflexivity.
  - intros b Hb. vm_compute in Hb. injection Hb as <-.
    split; [vm_compute; reflexivity|]. split; [vm_compute; discriminate|].
    split; vm_compute; reflexivity.
  - exists data. split; [exact Hw|]. intros r Hr.
    destruct (Hall r Hr) as (m' & -> & _ & _ & Hs & _ & _ & _ & _ & _ & _ & He).
    exists m'. by repeat split.
Defined.

Lemma Write_NoCompress_witness :
  let msg := Write_message ref_write_lib plain_writer
               (list_byte_of_string "boot") (drop 1 (take 12 two_lines)) in
  Write RefJSON.lib stored reliable ref_write_lib two_lines plain_writer world0
  = (set_zw (Some (BufferedWriter 0)) plain_writer,
     World [render_object (fixed_members RefJSON.lib msg (RefJSON.decimal 1))]
       0 1,
     Ok 11).
Proof.
  apply (Write_NoCompress RefJSON.lib stored reliable ref_write_lib two_lines
           (list_byte_of_string "boot") (drop 1 (take 12 two_lines))
           (RefJSON.decimal 1) plain_writer world0).
  - vm_compute. reflexivity.
  - reflexivity.
  - vm_compute. reflexivity.
  - vm_compute. reflexivity.
  - vm_compute. discriminate.
  - split; vm_compute; reflexivity.
Defined.

Lemma WriteMessage_compressor_choice_witness :
  let u := mkUDPWriter "host" "gelf" 0 CompressGzip (Some (ZlibWriter 5 0))
             0 0 in
  zw (WriteMessage RefJSON.lib stored reliable example_msg u
        (World [] 0 1)).1.1
  = Some (ZlibWriter 5 0)
  ∧ built (WriteMessage RefJSON.lib stored reliable example_msg u
             (World [] 0 1)).1.2 = 1%nat.
Proof.
  intros u.
  pose proof (WriteMessage_compressor_choice RefJSON.lib stored reliable
                example_msg u (World [] 0 1) example_z (ZlibWriter 5 0)) as H.
  apply H.
  - vm_compute. reflexivity.
  - reflexivity.
  - left. reflexivity.
Defined.
